(** * wordle.py: the guess generator

    A shallow embedding of [src/wordle.py] (the helpers [_permgen] and
    [_combogen], and the generator function [guess_generator]) together with
    the two [itertools] functions it relies on, followed by the properties
    of the generator.

    Python strings are modelled as [string]; the tuples of characters that
    [itertools] produces as [list ascii]; the two local [set]s of strings as
    [gset string]; the integer [n_unknown - n_required] as a [Z], since it
    may be negative.  A generator object is a value of type [generator]
    that is advanced by [next]. *)

From Stdlib Require Import ZArith Ascii String Factorial.
From stdpp Require Import base list strings gmap.

Open Scope string_scope.
Open Scope nat_scope.
Open Scope list_scope.

(** ** Exceptions and results *)

Inductive exn : Type := ValueError.

Inductive result (A : Type) : Type :=
| Ok (a : A)
| Raises (e : exn).
Arguments Ok {A} a.
Arguments Raises {A} e.

(** ** The pieces of [str] that the program uses *)

(** The question mark that stands for an unknown letter. *)
Definition qmark : ascii := "?"%char.

(** The characters of a string, as iterating over it gives them. *)
Definition chars (s : string) : list ascii := list_ascii_of_string s.

(** [''.join(t)] for a tuple [t] of characters. *)
Definition join (t : list ascii) : string := string_of_list_ascii t.

(** [s.count(c)] for a single character [c]. *)
Fixpoint str_count (s : string) (c : ascii) : nat :=
  match s with
  | EmptyString => 0
  | String a s' => (if Ascii.eqb a c then 1 else 0) + str_count s' c
  end.

(** [s.replace(old, new, 1)] for single characters [old] and [new]: the
    leftmost occurrence of [old] is replaced, nothing changes when there is
    none. *)
Fixpoint replace1 (s : string) (old new : ascii) : string :=
  match s with
  | EmptyString => EmptyString
  | String a s' =>
      if Ascii.eqb a old then String new s' else String a (replace1 s' old new)
  end.

(** ** [itertools] *)

Module itertools.
Section Tuples.
Context {A : Type}.

(** Every way of taking one element out of a pool, by increasing index:
  the element taken and the elements left, in their order. *)
Fixpoint picks (pool : list A) : list (A * list A) :=
match pool with
| [] => []
| x :: pool' => (x, pool') :: map (λ p, (p.1, x :: p.2)) (picks pool')
end.

Fixpoint permutations_upto (n : nat) (pool : list A) : list (list A) :=
match n with
| 0 => [[]]
| S n' =>
    flat_map (λ p, map (cons p.1) (permutations_upto n' p.2)) (picks pool)
end.

(** [itertools.permutations(pool)]: all orderings of the positions of
  [pool], in lexicographic order of the positions. Equal elements at
  different positions give equal tuples more than once. *)
Definition permutations (pool : list A) : list (list A) :=
permutations_upto (length pool) pool.

(** The [r]-length subsequences of [pool] in lexicographic order of the
  positions, for [r] a natural number. *)
Fixpoint subsequences (pool : list A) (r : nat) : list (list A) :=
match r with
| 0 => [[]]
| S r' =>
    match pool with
    | [] => []
    | x :: pool' =>
        map (cons x) (subsequences pool' r') ++ subsequences pool' (S r')
    end
end.

(** [itertools.combinations(pool, r)]: a negative [r] is refused with
  [ValueError], an [r] above [len(pool)] gives nothing. *)
Definition combinations (pool : list A) (r : Z) : result (list (list A)) :=
if (r <? 0)%Z then Raises ValueError
else Ok (subsequences pool (Z.to_nat r)).

(** [itertools.chain] applied to the listed iterables. *)
Definition chain (iterables : list (list A)) : list A := concat iterables.
End Tuples.
End itertools.

(** ** The helpers of [wordle.py] *)

(** [_permgen(p)]: the permutations of [p] as strings. *)
Definition _permgen (p : string) : list string :=
  map join (itertools.permutations (chars p)).

(** [_combogen(p, r)]: the combinations as strings; the [ValueError] of
    [itertools.combinations] comes out when the first element is
    requested. *)
Definition _combogen (p : string) (r : Z) : result (list string) :=
  match itertools.combinations (chars p) r with
  | Ok combos => Ok (map join combos)
  | Raises e => Raises e
  end.

(** ** [guess_generator] *)

(** The body of the loop over [_combogen(...)], on the state made of
    [perm_generators] and [combos_seen]: a combination already seen is
    skipped, any other one is added to the set and a permutation generator
    for it is appended. *)
Definition selection_step (required_letters : string)
  (state : list (list string) * gset string) (combo : string)
  : list (list string) * gset string :=
  let (perm_generators, combos_seen) := state in
  if decide (combo ∈ combos_seen) then state
  else (perm_generators ++ [_permgen (combo +:+ required_letters)],
        {[combo]} ∪ combos_seen).

(** The first half of the body: the stream [perms]. *)
Definition build_perms (previous_guess available_letters required_letters : string)
  : result (list string) :=
  let n_unknown := str_count previous_guess qmark in
  let n_required := String.length required_letters in
  if Nat.eqb n_unknown n_required then Ok (_permgen required_letters)
  else
    match _combogen available_letters
            (Z.of_nat n_unknown - Z.of_nat n_required) with
    | Ok combos =>
        let perm_generators :=
          (foldl (selection_step required_letters) ([], ∅) combos).1 in
        Ok (itertools.chain perm_generators)
    | Raises e => Raises e
    end.

(** The inner loop [for letter in perm: guess = guess.replace('?', letter, 1)]. *)
Definition substitute (previous_guess perm : string) : string :=
  foldl (λ guess letter, replace1 guess qmark letter) previous_guess (chars perm).

(** [dictionary is None or guess in dictionary]; a dictionary is anything
    with a membership test. *)
Definition accepted (dictionary : option (string → bool)) (guess : string) : bool :=
  match dictionary with
  | None => true
  | Some has => has guess
  end.

(** A generator object made by [guess_generator]: not started yet, suspended
    at the [yield] with the rest of [perms] and the set [perms_seen], or
    finished. *)
Inductive generator : Type :=
| Unstarted (previous_guess available_letters required_letters : string)
    (dictionary : option (string → bool))
| Suspended (previous_guess : string) (dictionary : option (string → bool))
    (perms : list string) (perms_seen : gset string)
| Closed.

(** What a request for the next element gives. *)
Inductive signal : Type :=
| Yield (guess : string)
| StopIteration
| Raise (e : exn).

(** Calling the generator function runs none of its body. *)
Definition guess_generator (previous_guess available_letters : string)
  (required_letters : string) (dictionary : option (string → bool)) : generator :=
  Unstarted previous_guess available_letters required_letters dictionary.

(** The second half of the body, run until the next [yield] or the end. *)
Fixpoint guess_loop (previous_guess : string) (dictionary : option (string → bool))
  (perms : list string) (perms_seen : gset string) : signal * generator :=
  match perms with
  | [] => (StopIteration, Closed)
  | perm :: rest =>
      if decide (perm ∈ perms_seen)
      then guess_loop previous_guess dictionary rest perms_seen
      else
        let perms_seen := {[perm]} ∪ perms_seen in
        let guess := substitute previous_guess perm in
        if accepted dictionary guess
        then (Yield guess, Suspended previous_guess dictionary rest perms_seen)
        else guess_loop previous_guess dictionary rest perms_seen
  end.

(** [next(g)]. *)
Definition next (g : generator) : signal * generator :=
  match g with
  | Unstarted previous_guess available_letters required_letters dictionary =>
      match build_perms previous_guess available_letters required_letters with
      | Ok perms => guess_loop previous_guess dictionary perms ∅
      | Raises e => (Raise e, Closed)
      end
  | Suspended previous_guess dictionary perms perms_seen =>
      guess_loop previous_guess dictionary perms perms_seen
  | Closed => (StopIteration, Closed)
  end.

(** How iterating a generator to its end stops. *)
Inductive outcome : Type :=
| Finished
| Failed (e : exn)
| Unfinished.

(** At most [n] requests; [Unfinished] when they do not reach the end. *)
Fixpoint iterate (n : nat) (g : generator) : list string * outcome :=
  match n with
  | 0 => ([], Unfinished)
  | S n' =>
      match next g with
      | (Yield guess, g') =>
          let r := iterate n' g' in (guess :: r.1, r.2)
      | (StopIteration, _) => ([], Finished)
      | (Raise e, _) => ([], Failed e)
      end
  end.

(** A bound on the number of elements a generator can still yield. *)
Definition pending (g : generator) : nat :=
  match g with
  | Unstarted previous_guess available_letters required_letters _ =>
      match build_perms previous_guess available_letters required_letters with
      | Ok perms => length perms
      | Raises _ => 0
      end
  | Suspended _ _ perms _ => length perms
  | Closed => 0
  end.

(** Iterating a generator to its end, as [for guess in g] does. *)
Definition exhaust (g : generator) : list string * outcome :=
  iterate (S (pending g)) g.

Definition yielded (g : generator) : list string := (exhaust g).1.
Definition ending (g : generator) : outcome := (exhaust g).2.

(** ** Notions used to state the properties *)

(** The number of unknown positions of a pattern. *)
Definition unknowns (pattern : string) : nat := str_count pattern qmark.

(** The pattern with its unknown positions filled from left to right: the
    first unknown position gets the first letter, and so on; positions for
    which no letter is left stay unknown. *)
Fixpoint fill (pattern : string) (letters : list ascii) : string :=
  match pattern with
  | EmptyString => EmptyString
  | String a pattern' =>
      if Ascii.eqb a qmark then
        match letters with
        | [] => pattern
        | letter :: letters' => String letter (fill pattern' letters')
        end
      else String a (fill pattern' letters)
  end.

(** The characters that [guess] has at the unknown positions of [pattern]. *)
Fixpoint unknown_letters (pattern guess : string) : list ascii :=
  match pattern, guess with
  | String a pattern', String b guess' =>
      if Ascii.eqb a qmark then b :: unknown_letters pattern' guess'
      else unknown_letters pattern' guess'
  | _, _ => []
  end.

(** Lower-case letters, and the characters allowed in a pattern. *)
Definition lowercase (c : ascii) : bool :=
  (97 <=? nat_of_ascii c)%nat && (nat_of_ascii c <=? 122)%nat.

Definition pattern_char (c : ascii) : bool :=
  lowercase c || Ascii.eqb c qmark.

(** Equal letters stand next to each other. *)
Fixpoint grouped (l : list ascii) : bool :=
  match l with
  | [] => true
  | x :: l' =>
      (bool_decide (x ∉ l') || bool_decide (head l' = Some x)) && grouped l'
  end.

(** The number of occurrences of [x] in [l]. *)
Definition occurrences {A} `{EqDecision A} (x : A) (l : list A) : nat :=
  length (filter (x =.) l).

(** The product, over the letters listed in [letters], of the factorials of
    their multiplicities in [l]. *)
Definition factorials (letters l : list ascii) : nat :=
  foldr (λ c acc, fact (occurrences c l) * acc) 1 letters.

(** The product of the factorials of the multiplicities of the distinct
    letters of [l]: the number of orderings of the positions of [l] that
    give one and the same arrangement of its letters. *)
Definition repeats (l : list ascii) : nat := factorials (remove_dups l) l.

(** The same number taken letter by letter: an occurrence that has [k]
    equal letters after it contributes the factor [k + 1]. *)
Fixpoint repeats_from_left {A} `{EqDecision A} (l : list A) : nat :=
  match l with
  | [] => 1
  | x :: l' => S (occurrences x l') * repeats_from_left l'
  end.

(** The guard that opens the body of both loops, [if x in seen: continue]
    followed by [seen.add(x)]: the items that get past it, in order. *)
Fixpoint skip_seen (items : list string) (seen : gset string) : list string :=
  match items with
  | [] => []
  | x :: rest =>
      if decide (x ∈ seen) then skip_seen rest seen
      else x :: skip_seen rest ({[x]} ∪ seen)
  end.

(** The combinations of size [r] that get past the check against
    [combos_seen] in the selection phase: the ones whose permutations are
    generated. *)
Definition selected_combos (available_letters : string) (r : Z)
  : result (list string) :=
  match _combogen available_letters r with
  | Ok combos => Ok (skip_seen combos ∅)
  | Raises e => Raises e
  end.

(** The guesses that a suspended generator still yields. *)
Definition remaining (previous_guess : string)
  (dictionary : option (string → bool)) (perms : list string)
  (seen : gset string) : list string :=
  filter (λ g, accepted dictionary g = true)
    (map (substitute previous_guess) (skip_seen perms seen)).

(** ** The command line front end *)

(** [c.isspace()] for a character with a code below 256: the codes 9 to
    13, 28 to 32, 133 and 160. *)
Definition isspace (c : ascii) : bool :=
  let n := nat_of_ascii c in
  ((9 <=? n) && (n <=? 13)) || ((28 <=? n) && (n <=? 32))
  || (n =? 133)%nat || (n =? 160)%nat.

(** The scan of [s.split()], with the characters of the word being read
    in [word]: white space ends a word and is dropped, and a word that is
    empty is not given. *)
Fixpoint split_words (s : string) (word : string) : list string :=
  match s with
  | EmptyString => if decide (word = "") then [] else [word]
  | String c s' =>
      if isspace c then
        if decide (word = "") then split_words s' ""
        else word :: split_words s' ""
      else split_words s' (word +:+ String c "")
  end.

(** [s.split()], without argument. *)
Definition str_split (s : string) : list string := split_words s "".

(** The attributes of the [argparse.Namespace] that [_cli_parse] reads;
    an option that is not given is [None]. *)
Module argparse.
Record Namespace : Type := {
  word : string;
  available : string;
  present : option string;
  dictionary : option string;
}.
End argparse.

(** The dictionary that [_cli_parse] makes of the option, a [set] of the
    words of the string, and its membership test. *)
Definition dictionary_set (d : string) : gset string := list_to_set (str_split d).

Definition member (words : gset string) (guess : string) : bool :=
  bool_decide (guess ∈ words).

(** [_cli_parse(args)]: the lines printed, one for each guess in the order
    of the generator, and how the loop over the generator ends. *)
Definition _cli_parse (args : argparse.Namespace) : list string * outcome :=
  let dictionary :=
    match argparse.dictionary args with
    | Some d => Some (member (dictionary_set d))
    | None => None
    end in
  let present :=
    match argparse.present args with
    | Some p => p
    | None => ""
    end in
  exhaust (guess_generator (argparse.word args) (argparse.available args)
             present dictionary).

(** Words separated by single spaces. *)
Fixpoint spaced (words : list string) : string :=
  match words with
  | [] => ""
  | [w] => w
  | w :: words' => w +:+ " " +:+ spaced words'
  end.

(** ** Strings and their characters *)

Section Strings.
Implicit Types (s p g : string) (t l : list ascii) (a b c : ascii).

Lemma chars_join t : chars (join t) = t.
Proof. apply list_ascii_of_string_of_list_ascii. Qed.

Lemma join_chars s : join (chars s) = s.
Proof. apply string_of_list_ascii_of_string. Qed.

Lemma join_inj t1 t2 : join t1 = join t2 → t1 = t2.
Proof. intros H. rewrite <-(chars_join t1), H. apply chars_join. Qed.

Lemma chars_inj s1 s2 : chars s1 = chars s2 → s1 = s2.
Proof. intros H. rewrite <-(join_chars s1), H. apply join_chars. Qed.

Lemma chars_app s1 s2 : chars (s1 +:+ s2) = chars s1 ++ chars s2.
Proof. induction s1 as [|a s1 IH]; simpl; [done|]. by rewrite <-IH. Qed.

Lemma length_chars s : length (chars s) = String.length s.
Proof. induction s as [|a s IH]; simpl; [done|]. by rewrite <-IH. Qed.

Lemma eqb_qmark_false a : a ≠ qmark → Ascii.eqb a qmark = false.
Proof. by intros ?%Ascii.eqb_neq. Qed.

(** *** Replacing the leftmost question mark *)

Lemma replace1_qmark s : replace1 s qmark qmark = s.
Proof.
  induction s as [|a s IH]; simpl; [done|].
  destruct (Ascii.eqb_spec a qmark) as [->|]; [done|]. by rewrite IH.
Qed.

Lemma fill_nil p : fill p [] = p.
Proof.
  induction p as [|a p IH]; simpl; [done|].
  destruct (Ascii.eqb a qmark); [done|]. by rewrite IH.
Qed.

Lemma fill_replace1 p c l :
  c ≠ qmark → fill (replace1 p qmark c) l = fill p (c :: l).
Proof.
  intros Hc. induction p as [|a p IH]; simpl; [done|].
  destruct (Ascii.eqb a qmark) eqn:Ha; simpl.
  - by rewrite (eqb_qmark_false c).
  - by rewrite Ha, IH.
Qed.

(** The loop of replacements fills the unknown positions from the left
    with the letters other than the question mark. *)
Lemma substitute_fill p perm :
  substitute p perm = fill p (filter (λ c, c ≠ qmark) (chars perm)).
Proof.
  unfold substitute. generalize (chars perm) as l. intros l.
  revert p. induction l as [|c l IH]; intros p; simpl.
  - by rewrite fill_nil.
  - rewrite IH, filter_cons. destruct (decide (c = qmark)) as [->|Hc].
    + rewrite decide_False by (intros H; by apply H). by rewrite replace1_qmark.
    + rewrite decide_True by done. by apply fill_replace1.
Qed.

Lemma fill_app_qmarks p l n : fill p (l ++ replicate n qmark) = fill p l.
Proof.
  revert l n. induction p as [|a p IH]; intros l n; simpl; [done|].
  destruct (Ascii.eqb_spec a qmark) as [->|Ha].
  - destruct l as [|c l]; simpl.
    + destruct n as [|n]; simpl; [done|].
      f_equal. rewrite <-(app_nil_l (replicate n qmark)), IH. apply fill_nil.
    + by rewrite IH.
  - by rewrite IH.
Qed.

Lemma length_fill p l : String.length (fill p l) = String.length p.
Proof.
  revert l. induction p as [|a p IH]; intros l; simpl; [done|].
  destruct (Ascii.eqb a qmark); [destruct l|]; simpl; by rewrite ?IH.
Qed.

(** Filling leaves the known positions alone. *)
Lemma fill_known p l i c :
  chars p !! i = Some c → c ≠ qmark → chars (fill p l) !! i = Some c.
Proof.
  revert l i. induction p as [|a p IH]; intros l i; simpl; [done|].
  destruct (Ascii.eqb_spec a qmark) as [->|Ha].
  - destruct i as [|i]; simpl; [naive_solver|].
    destruct l as [|b l]; simpl; [done|]. apply IH.
  - destruct i as [|i]; simpl; [done|]. apply IH.
Qed.

(** As many letters as unknown positions can be read back. *)
Lemma unknown_letters_fill p l :
  length l = unknowns p → unknown_letters p (fill p l) = l.
Proof.
  unfold unknowns. revert l. induction p as [|a p IH]; intros l; simpl.
  - by destruct l.
  - destruct (Ascii.eqb a qmark) eqn:Ha; simpl.
    + destruct l as [|b l]; simpl; [done|]. intros [= Hl]. by rewrite IH.
    + apply IH.
Qed.

Lemma fill_inj p l1 l2 :
  length l1 = unknowns p → length l2 = unknowns p →
  fill p l1 = fill p l2 → l1 = l2.
Proof.
  intros H1 H2 Hf. rewrite <-(unknown_letters_fill p l1 H1), Hf.
  by apply unknown_letters_fill.
Qed.

Lemma filter_ne_qmark l : qmark ∉ l → filter (λ c, c ≠ qmark) l = l.
Proof.
  induction l as [|c l IH]; [done|]. rewrite not_elem_of_cons. intros [??].
  rewrite filter_cons, decide_True by done. by rewrite IH.
Qed.
End Strings.

(** ** What [itertools] enumerates *)

Lemma elem_of_flat_map {A B} (f : A → list B) (l : list A) (b : B) :
  b ∈ flat_map f l ↔ ∃ x, b ∈ f x ∧ x ∈ l.
Proof.
  rewrite list_elem_of_In, in_flat_map. setoid_rewrite list_elem_of_In.
  split; intros (x & ? & ?); eauto.
Qed.

Lemma elem_of_concat {A} (ls : list (list A)) (x : A) :
  x ∈ concat ls ↔ ∃ l, x ∈ l ∧ l ∈ ls.
Proof.
  rewrite list_elem_of_In, in_concat. setoid_rewrite list_elem_of_In.
  split; intros (l & ? & ?); eauto.
Qed.

Section Itertools.
Context {A : Type}.
Implicit Types (x y : A) (l r s : list A).

Lemma picks_Permutation x r l : (x, r) ∈ itertools.picks l → l ≡ₚ x :: r.
Proof.
  revert r. induction l as [|y l IH]; intros r; simpl.
  - by intros ?%elem_of_nil.
  - rewrite elem_of_cons, list_elem_of_fmap.
    intros [[= -> ->]|([x' r'] & [= -> ->] & Hin)]; [done|].
    simpl in *. rewrite (IH _ Hin). apply Permutation_swap.
Qed.

Lemma picks_elem_of x l : x ∈ l → ∃ r, (x, r) ∈ itertools.picks l.
Proof.
  induction 1 as [x l|x y l _ [r Hr]]; simpl.
  - exists l. left.
  - exists (y :: r). right. apply list_elem_of_fmap. by exists (x, r).
Qed.

Lemma length_picks l : length (itertools.picks l) = length l.
Proof. induction l as [|y l IH]; simpl; [done|]. by rewrite length_map, IH. Qed.

Lemma elem_of_permutations_upto n l s :
  length l = n → s ∈ itertools.permutations_upto n l ↔ l ≡ₚ s.
Proof.
  revert l s. induction n as [|n IH]; intros l s Hlen; simpl.
  - apply nil_length_inv in Hlen as ->. rewrite list_elem_of_singleton.
    split; [by intros ->|]. by intros ?%Permutation_nil_l.
  - rewrite elem_of_flat_map. split.
    + intros ([x r] & Hs & Hin). simpl in Hs.
      apply list_elem_of_fmap in Hs as (s' & -> & Hs').
      pose proof (picks_Permutation _ _ _ Hin) as Hl.
      rewrite Hl. constructor. apply (IH r s'); [|done].
      apply Permutation_length in Hl. simpl in Hl. lia.
    + intros Hl. destruct s as [|x s'].
      { apply Permutation_length in Hl. simpl in Hl. lia. }
      destruct (picks_elem_of x l) as [r Hr].
      { rewrite Hl. left. }
      exists (x, r). split; [|done]. simpl.
      apply list_elem_of_fmap. exists s'. split; [done|].
      pose proof (picks_Permutation _ _ _ Hr) as Hl'.
      apply IH.
      * apply Permutation_length in Hl'. simpl in Hl'. lia.
      * apply (Permutation_cons_inv (a:=x)). by rewrite <-Hl', Hl.
Qed.

(** [itertools.permutations] gives exactly the rearrangements. *)
Lemma elem_of_permutations l s : s ∈ itertools.permutations l ↔ l ≡ₚ s.
Proof. by apply elem_of_permutations_upto. Qed.

(** The subsequences of length [k] are the sublists of length [k]. *)
Lemma elem_of_subsequences l k s :
  s ∈ itertools.subsequences l k ↔ s `sublist_of` l ∧ length s = k.
Proof.
  revert k s. induction l as [|x l IH]; intros [|k] s; simpl.
  - rewrite list_elem_of_singleton, sublist_nil_r.
    split; [by intros ->|by intros [-> _]].
  - rewrite elem_of_nil, sublist_nil_r. split; [done|]. by intros [-> ?].
  - rewrite list_elem_of_singleton. split.
    + intros ->. split; [apply sublist_nil_l|done].
    + by intros [_ ?%nil_length_inv].
  - rewrite elem_of_app, list_elem_of_fmap, sublist_cons_r.
    setoid_rewrite IH. split.
    + intros [(s' & -> & ? & <-)|[? ?]]; [|by auto].
      split; [|done]. right. by exists s'.
    + intros [[?|(s' & -> & ?)] Hlen]; [by right|].
      left. exists s'. simpl in Hlen. by simplify_eq.
Qed.

End Itertools.

(** ** The guard against items already seen *)

Section SkipSeen.
Implicit Types (items : list string) (seen : gset string) (x rq : string).

Lemma elem_of_skip_seen items seen x :
  x ∈ skip_seen items seen ↔ x ∈ items ∧ x ∉ seen.
Proof.
  revert seen. induction items as [|y items IH]; intros seen; simpl.
  - rewrite elem_of_nil. tauto.
  - destruct (decide (y ∈ seen)) as [Hy|Hy].
    + rewrite IH, elem_of_cons. split; [tauto|].
      intros [[->|?] ?]; tauto.
    + rewrite !elem_of_cons, IH, not_elem_of_union, not_elem_of_singleton.
      destruct (decide (x = y)) as [->|]; tauto.
Qed.

Lemma NoDup_skip_seen items seen : NoDup (skip_seen items seen).
Proof.
  revert seen. induction items as [|y items IH]; intros seen; simpl.
  - constructor.
  - destruct (decide (y ∈ seen)); [apply IH|].
    constructor; [|apply IH].
    rewrite elem_of_skip_seen, not_elem_of_union, not_elem_of_singleton. tauto.
Qed.

(** The loop over the combinations appends one permutation generator for
    each item that gets past the guard. *)
Lemma foldl_selection_step rq items gens seen :
  (foldl (selection_step rq) (gens, seen) items).1 =
    gens ++ map (λ combo, _permgen (combo +:+ rq)) (skip_seen items seen).
Proof.
  revert gens seen. induction items as [|x items IH]; intros gens seen; simpl.
  - by rewrite app_nil_r.
  - destruct (decide (x ∈ seen)); [apply IH|].
    rewrite IH. simpl. by rewrite <-app_assoc.
Qed.
End SkipSeen.

(** ** Iterating the generator *)

Section Iterate.
Implicit Types (pg av rq : string) (dict : option (string → bool)).

Lemma iterate_Suspended pg dict perms seen n :
  length perms < n →
  iterate n (Suspended pg dict perms seen) = (remaining pg dict perms seen, Finished).
Proof.
  unfold remaining.
  revert seen n. induction perms as [|perm rest IH]; intros seen [|n] Hn;
    simpl in Hn; try lia; [done|].
  specialize (IH seen) as IH1.
  specialize (IH ({[perm]} ∪ seen)) as IH2.
  cbn [iterate next guess_loop skip_seen].
  destruct (decide (perm ∈ seen)).
  - specialize (IH1 (S n) ltac:(lia)). by cbn [iterate next] in IH1.
  - cbn [map]. rewrite filter_cons.
    destruct (accepted dict (substitute pg perm)) eqn:Hacc.
    + rewrite decide_True by done. by rewrite (IH2 n) by lia.
    + rewrite decide_False by done.
      specialize (IH2 (S n) ltac:(lia)). by cbn [iterate next] in IH2.
Qed.

(** Iterating a fresh generator to its end: the failure of the first half
    of the body, or the guesses of the second half. *)
Lemma exhaust_guess_generator pg av rq dict :
  exhaust (guess_generator pg av rq dict) =
    match build_perms pg av rq with
    | Ok perms => (remaining pg dict perms ∅, Finished)
    | Raises e => ([], Failed e)
    end.
Proof.
  unfold exhaust, guess_generator, pending.
  destruct (build_perms pg av rq) as [perms|e] eqn:Hb.
  - rewrite <-(iterate_Suspended pg dict perms ∅ (S (length perms))) by lia.
    cbn [iterate next]. by rewrite Hb.
  - cbn [iterate next]. by rewrite Hb.
Qed.

(** More requests than needed change nothing. *)
Lemma iterate_enough pg av rq dict n :
  pending (guess_generator pg av rq dict) < n →
  iterate n (guess_generator pg av rq dict) =
    exhaust (guess_generator pg av rq dict).
Proof.
  rewrite exhaust_guess_generator. unfold guess_generator, pending.
  destruct (build_perms pg av rq) as [perms|e] eqn:Hb; intros Hn.
  - rewrite <-(iterate_Suspended pg dict perms ∅ n) by done.
    destruct n as [|n]; [lia|]. cbn [iterate next]. by rewrite Hb.
  - destruct n as [|n]; [lia|]. cbn [iterate next]. by rewrite Hb.
Qed.

(** Iteration always reaches the end of the generator. *)
Lemma ending_guess_generator pg av rq dict :
  ending (guess_generator pg av rq dict) ≠ Unfinished.
Proof.
  unfold ending. rewrite exhaust_guess_generator.
  by destruct (build_perms pg av rq).
Qed.
End Iterate.

(** ** The stream of orderings *)

Section BuildPerms.
Implicit Types (pg av rq perm combo : string) (k : Z).

Lemma elem_of_permgen p perm : perm ∈ _permgen p ↔ chars p ≡ₚ chars perm.
Proof.
  unfold _permgen. rewrite list_elem_of_fmap. split.
  - intros (t & -> & Ht%elem_of_permutations). by rewrite chars_join.
  - intros Hp. exists (chars perm). by rewrite join_chars, elem_of_permutations.
Qed.

Lemma combogen_negative p k : (k < 0)%Z → _combogen p k = Raises ValueError.
Proof.
  intros Hk. unfold _combogen, itertools.combinations.
  by rewrite (proj2 (Z.ltb_lt k 0) Hk).
Qed.

Lemma combogen_nonnegative p k :
  (0 ≤ k)%Z →
  _combogen p k = Ok (map join (itertools.subsequences (chars p) (Z.to_nat k))).
Proof.
  intros Hk. unfold _combogen, itertools.combinations.
  by rewrite (proj2 (Z.ltb_ge k 0) Hk).
Qed.

Lemma elem_of_combogen p k combos combo :
  _combogen p k = Ok combos →
  combo ∈ combos ↔
    chars combo `sublist_of` chars p ∧ length (chars combo) = Z.to_nat k.
Proof.
  destruct (Z.lt_ge_cases k 0) as [Hk|Hk].
  { by rewrite combogen_negative. }
  rewrite combogen_nonnegative by done. intros [= <-].
  rewrite list_elem_of_fmap. setoid_rewrite elem_of_subsequences. split.
  - intros (t & -> & ? & ?). by rewrite chars_join.
  - intros [? ?]. exists (chars combo). by rewrite join_chars.
Qed.

Lemma selected_combos_negative av k :
  (k < 0)%Z → selected_combos av k = Raises ValueError.
Proof. intros Hk. unfold selected_combos. by rewrite combogen_negative. Qed.

Lemma selected_combos_nonnegative av k :
  (0 ≤ k)%Z → ∃ selected, selected_combos av k = Ok selected.
Proof.
  intros Hk. unfold selected_combos. rewrite combogen_nonnegative by done. eauto.
Qed.

Lemma elem_of_selected_combos av k selected combo :
  selected_combos av k = Ok selected →
  combo ∈ selected ↔
    chars combo `sublist_of` chars av ∧ length (chars combo) = Z.to_nat k.
Proof.
  unfold selected_combos.
  destruct (_combogen av k) as [combos|e] eqn:Hc; [|done]. intros [= <-].
  rewrite elem_of_skip_seen, (elem_of_combogen _ _ _ _ Hc).
  split; [tauto|]. intros ?. split; [done|]. apply not_elem_of_empty.
Qed.

(** The stream [perms] in terms of the selected combinations. *)
Lemma build_perms_selected pg av rq :
  build_perms pg av rq =
    if Nat.eqb (unknowns pg) (String.length rq) then Ok (_permgen rq)
    else
      match selected_combos av
              (Z.of_nat (unknowns pg) - Z.of_nat (String.length rq)) with
      | Ok selected =>
          Ok (itertools.chain
                (map (λ combo, _permgen (combo +:+ rq)) selected))
      | Raises e => Raises e
      end.
Proof.
  unfold build_perms, selected_combos, unknowns.
  destruct (Nat.eqb _ _); [done|]. destruct (_combogen _ _); [|done].
  by rewrite foldl_selection_step.
Qed.

Lemma build_perms_short pg av rq :
  unknowns pg < String.length rq → build_perms pg av rq = Raises ValueError.
Proof.
  rewrite build_perms_selected. intros Hlt.
  rewrite (proj2 (Nat.eqb_neq _ _)) by lia.
  by rewrite selected_combos_negative by lia.
Qed.

Lemma build_perms_enough pg av rq :
  String.length rq ≤ unknowns pg → ∃ perms, build_perms pg av rq = Ok perms.
Proof.
  rewrite build_perms_selected. intros Hle.
  destruct (Nat.eqb _ _); [eauto|].
  destruct (selected_combos_nonnegative av
    (Z.of_nat (unknowns pg) - Z.of_nat (String.length rq))) as [sel ->];
    [lia|eauto].
Qed.

(** The orderings examined are the rearrangements of a pool made of a
    combination of available letters followed by the required ones. *)
Lemma elem_of_build_perms pg av rq perms perm :
  build_perms pg av rq = Ok perms →
  perm ∈ perms ↔
    ∃ combo : list ascii,
      combo `sublist_of` chars av ∧
      length combo + String.length rq = unknowns pg ∧
      combo ++ chars rq ≡ₚ chars perm.
Proof.
  rewrite build_perms_selected.
  destruct (Nat.eqb_spec (unknowns pg) (String.length rq)) as [Heq|Hne].
  - intros [= <-]. rewrite elem_of_permgen. split.
    + intros Hp. exists []. split; [apply sublist_nil_l|]. split; [by simpl|done].
    + intros (combo & _ & Hlen & Hp).
      assert (combo = []) as -> by (apply nil_length_inv; lia). done.
  - set (k := (Z.of_nat (unknowns pg) - Z.of_nat (String.length rq))%Z).
    destruct (selected_combos av k) as [selected|e] eqn:Hsel; [|done].
    intros [= <-]. unfold itertools.chain.
    assert (0 ≤ k)%Z as Hk.
    { destruct (Z.lt_ge_cases k 0) as [Hk|Hk]; [|done].
      by rewrite selected_combos_negative in Hsel. }
    rewrite elem_of_concat. setoid_rewrite list_elem_of_fmap. split.
    + intros (l & Hperm & combo & -> & Hin).
      apply (elem_of_selected_combos _ _ _ _ Hsel) in Hin as [Hsub Hlen].
      apply elem_of_permgen in Hperm. rewrite chars_app in Hperm.
      exists (chars combo). split; [done|]. split; [lia|done].
    + intros (combo & Hsub & Hlen & Hp).
      exists (_permgen (join combo +:+ rq)). split.
      * apply elem_of_permgen. by rewrite chars_app, chars_join.
      * exists (join combo). split; [done|].
        apply (elem_of_selected_combos _ _ _ _ Hsel).
        rewrite chars_join. split; [done|lia].
Qed.

(** Every ordering has as many letters as there are unknown positions. *)
Lemma build_perms_length pg av rq perms perm :
  build_perms pg av rq = Ok perms → perm ∈ perms →
  length (chars perm) = unknowns pg.
Proof.
  intros Hb (combo & _ & Hlen & Hp)%(elem_of_build_perms _ _ _ _ _ Hb).
  rewrite <-Hp, length_app, length_chars. lia.
Qed.
End BuildPerms.

(** ** What the generator yields *)

Section Yielded.
Implicit Types (pg av rq perm g : string) (dict : option (string → bool)).

Lemma yielded_guess_generator pg av rq dict :
  yielded (guess_generator pg av rq dict) =
    match build_perms pg av rq with
    | Ok perms => remaining pg dict perms ∅
    | Raises _ => []
    end.
Proof.
  unfold yielded. rewrite exhaust_guess_generator.
  by destruct (build_perms pg av rq).
Qed.

Lemma ending_guess_generator_eq pg av rq dict :
  ending (guess_generator pg av rq dict) =
    match build_perms pg av rq with
    | Ok _ => Finished
    | Raises e => Failed e
    end.
Proof.
  unfold ending. rewrite exhaust_guess_generator.
  by destruct (build_perms pg av rq).
Qed.

Lemma elem_of_remaining pg dict perms g :
  g ∈ remaining pg dict perms ∅ ↔
    ∃ perm, perm ∈ perms ∧ g = substitute pg perm ∧ accepted dict g = true.
Proof.
  unfold remaining. rewrite list_elem_of_filter, list_elem_of_fmap.
  setoid_rewrite elem_of_skip_seen. split.
  - intros (Hacc & perm & -> & Hin & _). eauto.
  - intros (perm & Hin & -> & Hacc). split; [done|].
    exists perm. split; [done|]. split; [done|]. apply not_elem_of_empty.
Qed.

Lemma remaining_None pg dict perms :
  remaining pg dict perms ∅ =
    filter (λ g, accepted dict g = true) (remaining pg None perms ∅).
Proof.
  unfold remaining. f_equal. symmetry. simpl.
  induction (map _ _) as [|x l IH]; [done|].
  by rewrite filter_cons, decide_True, IH by done.
Qed.

(** A yielded guess comes from one of the orderings and passes the
    dictionary. *)
Lemma elem_of_yielded pg av rq dict g :
  g ∈ yielded (guess_generator pg av rq dict) ↔
    ∃ perms perm, build_perms pg av rq = Ok perms ∧ perm ∈ perms ∧
      g = substitute pg perm ∧ accepted dict g = true.
Proof.
  rewrite yielded_guess_generator.
  destruct (build_perms pg av rq) as [perms|e].
  - rewrite elem_of_remaining. split.
    + intros (perm & ? & ? & ?). by exists perms, perm.
    + intros (? & perm & [= <-] & ? & ? & ?). by exists perm.
  - rewrite elem_of_nil. split; [done|]. by intros (? & ? & ? & _).
Qed.
End Yielded.

(** ** From orderings to guesses *)

Section Orderings.
Implicit Types (pg av rq perm g : string) (l : list ascii)
  (dict : option (string → bool)).

Lemma qmarks_last l :
  ∃ n, filter (λ c, c ≠ qmark) l ++ replicate n qmark ≡ₚ l.
Proof.
  induction l as [|c l [n IH]]; [by exists 0|].
  rewrite filter_cons. destruct (decide (c ≠ qmark)) as [Hc|Hc].
  - exists n. simpl. by rewrite IH.
  - apply dec_stable in Hc as ->. exists (S n). simpl.
    by rewrite <-Permutation_middle, IH.
Qed.

(** The guess made from an ordering is the pattern filled from left to
    right with a rearrangement of that ordering, which is the ordering
    itself when it has no question mark. *)
Lemma substitute_ordering pg perm :
  ∃ ordering, ordering ≡ₚ chars perm ∧ substitute pg perm = fill pg ordering.
Proof.
  destruct (qmarks_last (chars perm)) as [n Hn].
  exists (filter (λ c, c ≠ qmark) (chars perm) ++ replicate n qmark).
  split; [done|]. by rewrite substitute_fill, fill_app_qmarks.
Qed.

Lemma substitute_letters pg perm :
  qmark ∉ chars perm → substitute pg perm = fill pg (chars perm).
Proof. intros Hq. by rewrite substitute_fill, filter_ne_qmark. Qed.

Lemma ordering_letters pg av rq perms perm :
  qmark ∉ chars av → qmark ∉ chars rq →
  build_perms pg av rq = Ok perms → perm ∈ perms → qmark ∉ chars perm.
Proof.
  intros Hav Hrq Hb (combo & Hsub & _ & Hp)%(elem_of_build_perms _ _ _ _ _ Hb).
  rewrite <-Hp, elem_of_app. intros [Hc|Hc]; [|done].
  apply Hav. by eapply elem_of_sublist.
Qed.

(** Orderings made of letters, one for each unknown position, give
    pairwise distinct guesses. *)
Lemma NoDup_remaining pg dict perms :
  (∀ perm, perm ∈ perms →
     (qmark ∉ chars perm) ∧ length (chars perm) = unknowns pg) →
  NoDup (remaining pg dict perms ∅).
Proof.
  intros Hperms. unfold remaining.
  apply NoDup_filter, NoDup_fmap_2_strong; [|apply NoDup_skip_seen].
  intros p1 p2 [[??]%Hperms _]%elem_of_skip_seen [[??]%Hperms _]%elem_of_skip_seen.
  rewrite !substitute_letters by done.
  intros Hf%fill_inj; [by apply chars_inj|done..].
Qed.

Lemma lowercase_not_qmark c : lowercase c = true → c ≠ qmark.
Proof. intros H ->. by vm_compute in H. Qed.

Lemma lowercase_no_qmark l : Forall (λ c, lowercase c = true) l → qmark ∉ l.
Proof.
  rewrite Forall_forall. intros Hl Hq. by apply Hl, lowercase_not_qmark in Hq.
Qed.
End Orderings.

(** ** Combinations of letters that stand together *)

Section Grouped.
Implicit Types (x : ascii) (l c : list ascii).

Lemma grouped_cons x l :
  grouped (x :: l) = true ↔ (x ∈ l → head l = Some x) ∧ grouped l = true.
Proof.
  simpl. rewrite andb_true_iff, orb_true_iff, !bool_decide_eq_true.
  split; intros [H ?]; (split; [|done]).
  - intros ?. by destruct H.
  - destruct (decide (x ∈ l)); [right|left]; auto.
Qed.

(** In a grouped list that starts with [x], a sublist with an [x] can be
    taken to start at the first position. *)
Lemma grouped_sublist_head x l c :
  grouped (x :: l) = true → c `sublist_of` x :: l → x ∈ c →
  ∃ c', c = x :: c' ∧ c' `sublist_of` l.
Proof.
  revert c. induction l as [|y l IH]; intros c Hg Hsub Hx.
  - apply sublist_cons_r in Hsub as [->%sublist_nil_r|(c' & -> & ?)]; [|eauto].
    by apply elem_of_nil in Hx.
  - apply sublist_cons_r in Hsub as [Hsub|(c' & -> & ?)]; [|eauto].
    apply grouped_cons in Hg as [Hhead Hg].
    assert (y = x) as ->.
    { specialize (Hhead (elem_of_sublist _ _ _ Hx Hsub)). by simplify_eq/=. }
    destruct (IH c Hg Hsub Hx) as (c' & -> & Hc'). exists c'.
    split; [done|]. by apply sublist_cons.
Qed.

(** Two sublists of a grouped list with the same letters are equal. *)
Lemma grouped_sublist_unique l c1 c2 :
  grouped l = true → c1 `sublist_of` l → c2 `sublist_of` l →
  c1 ≡ₚ c2 → c1 = c2.
Proof.
  revert c1 c2. induction l as [|x l IH]; intros c1 c2 Hg H1 H2 Hp.
  - apply sublist_nil_r in H1, H2. congruence.
  - destruct (decide (x ∈ c1)) as [Hx|Hx].
    + destruct (grouped_sublist_head x l c1) as (c1' & -> & ?); [done..|].
      destruct (grouped_sublist_head x l c2) as (c2' & -> & ?);
        [done|done|by rewrite <-Hp|].
      f_equal. apply grouped_cons in Hg as [_ Hg].
      apply IH; [done..|]. by apply (Permutation_cons_inv (a:=x)).
    + assert (x ∉ c2) as Hx2 by (by rewrite <-Hp).
      apply grouped_cons in Hg as [_ Hg]. apply IH; [done| | |done].
      * apply sublist_cons_r in H1 as [?|(c' & -> & ?)]; [done|].
        destruct Hx. left.
      * apply sublist_cons_r in H2 as [?|(c' & -> & ?)]; [done|].
        destruct Hx2. left.
Qed.
End Grouped.

(** ** Counting orderings *)

Section Counting.
Context {A : Type} `{EqDecision A}.
Implicit Types (x y : A) (l s : list A).

Lemma occurrences_cons x y l :
  occurrences x (y :: l) = (if decide (x = y) then 1 else 0) + occurrences x l.
Proof. unfold occurrences. rewrite filter_cons. by destruct (decide (x = y)). Qed.

Lemma occurrences_app x l1 l2 :
  occurrences x (l1 ++ l2) = occurrences x l1 + occurrences x l2.
Proof. unfold occurrences. by rewrite filter_app, length_app. Qed.

Lemma occurrences_Permutation x l1 l2 :
  l1 ≡ₚ l2 → occurrences x l1 = occurrences x l2.
Proof. unfold occurrences. by intros ->. Qed.

Lemma occurrences_not_elem_of x l : x ∉ l → occurrences x l = 0.
Proof.
  induction l as [|y l IH]; [done|]. rewrite not_elem_of_cons. intros [??].
  by rewrite occurrences_cons, decide_False, IH.
Qed.

Lemma repeats_from_left_Permutation l1 l2 :
  l1 ≡ₚ l2 → repeats_from_left l1 = repeats_from_left l2.
Proof.
  induction 1 as [|x l1 l2 Hp IH|x y l|l1 l2 l3 _ IH1 _ IH2]; simpl.
  - done.
  - by rewrite IH, (occurrences_Permutation x l1 l2).
  - rewrite !occurrences_cons.
    destruct (decide (y = x)) as [->|]; [by rewrite decide_True|].
    rewrite decide_False by done. lia.
  - by rewrite IH1.
Qed.

(** Every occurrence of [x] in the flattened list comes from one part. *)
Lemma occurrences_flat_map {B} (f : B → list A) (ps : list B) x :
  occurrences x (flat_map f ps) =
    foldr (λ p acc, occurrences x (f p) + acc) 0 ps.
Proof.
  induction ps as [|p ps IH]; simpl; [done|].
  by rewrite occurrences_app, IH.
Qed.

Lemma length_flat_map_const {B} (f : B → list A) (ps : list B) m :
  (∀ p, p ∈ ps → length (f p) = m) → length (flat_map f ps) = length ps * m.
Proof.
  induction ps as [|p ps IH]; intros Hm; simpl; [done|].
  rewrite length_app, Hm, IH; [done| |left]. intros. apply Hm. by right.
Qed.

(** A list whose elements all occur the same number of times is that
    many times longer than the list of its distinct elements. *)
Lemma length_equal_occurrences (distinct l : list A) m :
  NoDup distinct → (∀ x, x ∈ l → x ∈ distinct) →
  (∀ x, x ∈ distinct → occurrences x l = m) →
  length l = length distinct * m.
Proof.
  revert l. induction distinct as [|d distinct IH]; intros l Hnd Hsub Hocc.
  - destruct l as [|x l]; [done|]. specialize (Hsub x ltac:(left)).
    by apply elem_of_nil in Hsub.
  - apply NoDup_cons in Hnd as [Hd Hnd].
    pose proof (filter_app_complement (d =.) l) as Hl.
    apply Permutation_length in Hl. rewrite length_app in Hl.
    rewrite <-Hl. fold (occurrences d l). rewrite (Hocc d) by left. simpl.
    f_equal. apply IH; [done|..].
    + intros x [Hx Hne]%list_elem_of_filter.
      apply Hsub, elem_of_cons in Hne as [->|?]; [|done]. by destruct Hx.
    + intros x Hx. rewrite <-(Hocc x) by (by right). unfold occurrences.
      rewrite list_filter_filter. apply (f_equal length), list_filter_iff.
      intros y. split; [tauto|]. intros <-. split; [done|]. by intros ->.
Qed.
End Counting.

Section CountingPermutations.
Context {A : Type} `{EqDecision A}.
Implicit Types (x y : A) (l s : list A).

Lemma map_fst_picks l : map fst (itertools.picks l) = l.
Proof.
  induction l as [|x l IH]; simpl; [done|]. f_equal.
  rewrite map_map. simpl. exact IH.
Qed.

(** A pool of [n] elements has [n!] orderings of its positions. *)
Lemma length_permutations_upto n l :
  length l = n → length (itertools.permutations_upto n l) = fact n.
Proof.
  revert l. induction n as [|n IH]; intros l Hlen; simpl; [done|].
  rewrite (length_flat_map_const _ _ (fact n)), length_picks, Hlen; [done|].
  intros [x r] Hin. rewrite length_map. apply IH.
  apply picks_Permutation, Permutation_length in Hin. simpl in *. lia.
Qed.

Lemma occurrences_map_cons x y s (L : list (list A)) :
  occurrences (x :: s) (map (cons y) L) =
    if decide (x = y) then occurrences s L else 0.
Proof.
  induction L as [|t L IH]; simpl.
  - by destruct (decide (x = y)).
  - rewrite !occurrences_cons, IH. destruct (decide (x = y)) as [->|Hne].
    + destruct (decide (s = t)) as [->|Hst].
      * by rewrite decide_True.
      * rewrite decide_False; [done|]. by intros [= ?].
    + rewrite decide_False; [done|]. by intros [= ? ?].
Qed.

(** Each arrangement of the elements of a pool comes from as many
    orderings of its positions as [repeats_from_left] says. *)
Lemma occurrences_permutations_upto n l s :
  length l = n → l ≡ₚ s →
  occurrences s (itertools.permutations_upto n l) = repeats_from_left s.
Proof.
  revert l s. induction n as [|n IH]; intros l s Hlen Hp.
  - apply nil_length_inv in Hlen as ->. by apply Permutation_nil_l in Hp as <-.
  - destruct s as [|x s].
    { apply Permutation_length in Hp. simpl in Hp. lia. }
    cbn [itertools.permutations_upto repeats_from_left].
    rewrite occurrences_flat_map.
    assert (∀ ps : list (A * list A),
      (∀ p, p ∈ ps → l ≡ₚ p.1 :: p.2) →
      foldr (λ p acc,
          occurrences (x :: s)
            (map (cons p.1) (itertools.permutations_upto n p.2)) + acc) 0 ps
      = occurrences x (map fst ps) * repeats_from_left s) as Haux.
    { induction ps as [|[y r] ps IHps]; intros Hps; simpl; [done|].
      rewrite IHps by (intros; apply Hps; by right).
      rewrite occurrences_map_cons, occurrences_cons.
      destruct (decide (x = y)) as [<-|]; [|done].
      specialize (Hps (x, r) ltac:(left)). simpl in Hps.
      rewrite (IH r s); [lia| |].
      - apply Permutation_length in Hps. simpl in Hps. lia.
      - apply (Permutation_cons_inv (a:=x)). by rewrite <-Hps. }
    rewrite Haux by (intros [y r]; apply picks_Permutation).
    rewrite map_fst_picks, (occurrences_Permutation x l (x :: s)) by done.
    by rewrite occurrences_cons, decide_True.
Qed.

Lemma length_permutations l :
  length (itertools.permutations l) = fact (length l).
Proof. by apply length_permutations_upto. Qed.

Lemma occurrences_permutations l s :
  l ≡ₚ s → occurrences s (itertools.permutations l) = repeats_from_left l.
Proof.
  intros Hp. unfold itertools.permutations.
  rewrite (occurrences_permutations_upto _ l s) by done.
  symmetry. by apply repeats_from_left_Permutation.
Qed.
End CountingPermutations.

(** *** The product of factorials *)

Section Factorials.
Implicit Types (c : ascii) (letters l : list ascii).

Lemma factorials_nil letters : factorials letters [] = 1.
Proof. induction letters as [|c letters IH]; simpl; [done|]. by rewrite IH. Qed.

Lemma factorials_cons_other letters c l :
  c ∉ letters → factorials letters (c :: l) = factorials letters l.
Proof.
  induction letters as [|d letters IH]; simpl; [done|].
  rewrite not_elem_of_cons. intros [Hne Hnin].
  by rewrite IH, occurrences_cons, decide_False by done.
Qed.

Lemma factorials_cons letters c l :
  NoDup letters → c ∈ letters →
  factorials letters (c :: l) = S (occurrences c l) * factorials letters l.
Proof.
  induction letters as [|d letters IH]; simpl.
  - by intros _ ?%elem_of_nil.
  - intros [Hd Hnd]%NoDup_cons. rewrite occurrences_cons.
    destruct (decide (d = c)) as [->|Hne].
    + intros _. rewrite factorials_cons_other by done. simpl. lia.
    + intros [->|Hin]%elem_of_cons; [done|]. rewrite IH by done. simpl. lia.
Qed.

Lemma repeats_from_left_factorials letters l :
  NoDup letters → (∀ c, c ∈ l → c ∈ letters) →
  repeats_from_left l = factorials letters l.
Proof.
  intros Hnd. induction l as [|c l IH]; intros Hsub; simpl.
  - by rewrite factorials_nil.
  - rewrite factorials_cons, IH; [done| |done|].
    + intros. apply Hsub. by right.
    + apply Hsub. left.
Qed.

(** The two ways of counting agree. *)
Lemma repeats_from_left_repeats l : repeats_from_left l = repeats l.
Proof.
  apply repeats_from_left_factorials; [apply NoDup_remove_dups|].
  intros c. by rewrite elem_of_remove_dups.
Qed.
End Factorials.

Section Completeness.
Implicit Types (pg rq : string) (perms : list string).

Lemma length_remaining_None pg perms :
  length (remaining pg None perms ∅) = length (skip_seen perms ∅).
Proof.
  unfold remaining. rewrite <-(length_map (substitute pg) (skip_seen perms ∅)).
  f_equal. simpl. induction (map _ _) as [|x l IH]; [done|].
  by rewrite filter_cons, decide_True, IH by done.
Qed.

Lemma occurrences_join (t : list ascii) (P : list (list ascii)) :
  occurrences (join t) (map join P) = occurrences t P.
Proof.
  induction P as [|s P IH]; simpl; [done|].
  rewrite !occurrences_cons, IH. destruct (decide (t = s)) as [->|Hne].
  - by rewrite decide_True.
  - rewrite decide_False; [done|]. by intros ?%join_inj.
Qed.

(** The orderings of the required letters, counted: the distinct ones,
    each as often as the letters repeat, make up all [r!] of them. *)
Lemma length_distinct_permgen rq :
  length (skip_seen (_permgen rq) ∅) * repeats (chars rq) =
    fact (String.length rq).
Proof.
  rewrite <-length_chars, <-(length_permutations (chars rq)).
  rewrite <-(length_map join). fold (_permgen rq). symmetry.
  apply length_equal_occurrences.
  - apply NoDup_skip_seen.
  - intros x Hx. apply elem_of_skip_seen. split; [done|]. apply not_elem_of_empty.
  - intros x [Hx%elem_of_permgen _]%elem_of_skip_seen.
    rewrite <-(join_chars x). unfold _permgen.
    rewrite occurrences_join, (occurrences_permutations _ _ Hx).
    apply repeats_from_left_repeats.
Qed.
End Completeness.

(** ** The model on concrete inputs *)

Example permgen_abc :
  _permgen "abc" = ["abc"; "acb"; "bac"; "bca"; "cab"; "cba"].
Proof. reflexivity. Qed.

Example permgen_repeated_letter : _permgen "aab" =
  ["aab"; "aba"; "aab"; "aba"; "baa"; "baa"].
Proof. reflexivity. Qed.

Example combogen_abcd :
  _combogen "abcd" 2 = Ok ["ab"; "ac"; "ad"; "bc"; "bd"; "cd"].
Proof. reflexivity. Qed.

Example combogen_too_long : _combogen "ab" 3 = Ok [].
Proof. reflexivity. Qed.

Example combogen_negative_size : _combogen "ab" (-1) = Raises ValueError.
Proof. reflexivity. Qed.

Example substitute_in_order : substitute "s?o?e" "tr" = "store".
Proof. reflexivity. Qed.

Example guesses_with_required_letter :
  exhaust (guess_generator "a?b?" "xyy" "z" None) =
    (["axbz"; "azbx"; "aybz"; "azby"], Finished).
Proof. by vm_compute. Qed.

Example guesses_all_letters_available :
  length (yielded (guess_generator "s????" "eort" "" None)) = 24 ∧
  "store" ∈ yielded (guess_generator "s????" "eort" "" None).
Proof. split; [by vm_compute|]. apply (bool_decide_unpack _). by vm_compute. Qed.

Example guesses_in_dictionary :
  exhaust (guess_generator "cr???" "aenty" ""
             (Some (λ w, bool_decide (w ∈ ["crane"; "crate"; "crony"])))) =
    (["crane"; "crate"], Finished).
Proof. by vm_compute. Qed.

Example grouped_letters :
  grouped (chars "aabb") = true ∧ grouped (chars "aba") = false.
Proof. by vm_compute. Qed.

Example repeats_of_letters :
  repeats (chars "aabbb") = 12 ∧ repeats_from_left (chars "babab") = 12.
Proof. by vm_compute. Qed.

(** ** Properties of [guess_generator] *)

(** C1. When the pattern has as many unknown positions as there are
    present letters, the guesses yielded without a dictionary are exactly
    the pattern filled from left to right with the arrangements of the
    present letters; there are as many of them as distinct arrangements,
    that is the factorial of the number of present letters divided by the
    factorials of their multiplicities. The present letters are letters from
    a to z; what the proof needs of this is that none of them is the
    question mark, which is the hypothesis written. *)
Theorem arrangements_complete (pattern available present : string) :
  unknowns pattern = String.length present →
  qmark ∉ chars present →
  let gs := yielded (guess_generator pattern available present None) in
  (∀ g, g ∈ gs ↔ ∃ s : list ascii, s ≡ₚ chars present ∧ g = fill pattern s) ∧
  (∀ arrangements : list (list ascii),
     NoDup arrangements → (∀ s, s ∈ arrangements ↔ s ≡ₚ chars present) →
     size (list_to_set gs : gset string) = length arrangements) ∧
  size (list_to_set gs : gset string) * repeats (chars present) =
    fact (String.length present).
Proof.
  intros Hu Hq gs.
  assert (build_perms pattern available present = Ok (_permgen present)) as Hb.
  { by rewrite build_perms_selected, (proj2 (Nat.eqb_eq _ _) Hu). }
  assert (gs = remaining pattern None (_permgen present) ∅) as Hgs.
  { unfold gs. by rewrite yielded_guess_generator, Hb. }
  assert (∀ perm, perm ∈ _permgen present →
    (qmark ∉ chars perm) ∧ length (chars perm) = unknowns pattern) as Hperms.
  { intros perm Hp%elem_of_permgen. rewrite <-Hp, length_chars. by split. }
  assert (∀ g, g ∈ gs ↔
    ∃ s : list ascii, s ≡ₚ chars present ∧ g = fill pattern s) as Hmem.
  { intros g. rewrite Hgs, elem_of_remaining. split.
    - intros (perm & Hin & -> & _). exists (chars perm).
      rewrite substitute_letters by (by apply Hperms).
      by apply elem_of_permgen in Hin.
    - intros (s & Hs & ->). exists (join s).
      assert (join s ∈ _permgen present) as Hin.
      { apply elem_of_permgen. by rewrite chars_join. }
      split; [done|]. split; [|done].
      rewrite substitute_letters by (by apply Hperms). by rewrite chars_join. }
  assert (NoDup gs) as Hnd by (rewrite Hgs; by apply NoDup_remaining).
  rewrite (size_list_to_set gs Hnd).
  split; [done|]. split.
  - intros arrangements Harr Hall.
    rewrite <-(length_map (fill pattern) arrangements).
    apply Permutation_length, NoDup_Permutation; [done| |].
    + apply NoDup_fmap_2_strong; [|done].
      intros s1 s2 H1%Hall H2%Hall. apply fill_inj.
      * by rewrite H1, length_chars.
      * by rewrite H2, length_chars.
    + intros g. rewrite Hmem, list_elem_of_fmap.
      split; intros (s & ? & ?); exists s; by rewrite ?Hall in *.
  - rewrite Hgs, length_remaining_None. apply length_distinct_permgen.
Qed.

Lemma arrangements_complete_witness :
  size (list_to_set (yielded (guess_generator "?e?l?" "xyz" "ltt" None)) : gset string)
    * repeats (chars "ltt") = fact (String.length "ltt").
Proof.
  destruct (arrangements_complete "?e?l?" "xyz" "ltt") as (_ & _ & H).
  - reflexivity.
  - apply (bool_decide_unpack _). vm_compute. reflexivity.
  - exact H.
Defined.

(** Outside the alphabet of the letters: a question mark given among the
    present letters is put in place of a question mark and leaves the
    position unknown for the next letter, so that an arrangement is missing
    from the guesses and there are fewer guesses than arrangements. *)
Lemma question_mark_letter_loses_arrangement :
  unknowns "??" = String.length "?a" ∧
  chars "?a" ≡ₚ chars "?a" ∧
  (fill "??" (chars "?a") ∉ yielded (guess_generator "??" "" "?a" None)) ∧
  size (list_to_set (yielded (guess_generator "??" "" "?a" None)) : gset string)
    * repeats (chars "?a") ≠ fact (String.length "?a").
Proof.
  split; [done|]. split; [done|].
  assert (yielded (guess_generator "??" "" "?a" None) = ["a?"; "a?"]) as ->
    by (by vm_compute).
  split.
  - rewrite !not_elem_of_cons. by repeat split; try apply not_elem_of_nil.
  - by vm_compute.
Qed.

(** C2. The yielded guesses are pairwise distinct, whatever letters are
    repeated among the available and present letters and whatever the
    dictionary. The available and present letters are letters from a to z;
    what the proof needs of this is that none of them is the question mark,
    which is the hypothesis written. *)
Theorem guesses_distinct (pattern available present : string)
  (dictionary : option (string → bool)) :
  qmark ∉ chars available → qmark ∉ chars present →
  NoDup (yielded (guess_generator pattern available present dictionary)).
Proof.
  intros Hav Hrq. rewrite yielded_guess_generator.
  destruct (build_perms pattern available present) as [perms|e] eqn:Hb;
    [|constructor].
  apply NoDup_remaining. intros perm Hin.
  eauto using ordering_letters, build_perms_length.
Qed.

Lemma guesses_distinct_witness :
  NoDup (yielded (guess_generator "a?b?" "xyy" "z" None)).
Proof.
  apply (guesses_distinct "a?b?" "xyy" "z" None);
    apply (bool_decide_unpack _); vm_compute; reflexivity.
Defined.

(** Outside the alphabet of the letters: with a question mark given among
    the present letters the same guess is yielded twice. *)
Lemma question_mark_letter_repeats_guess :
  yielded (guess_generator "??" "" "?a" None) = ["a?"; "a?"] ∧
  ¬ NoDup (yielded (guess_generator "??" "" "?a" None)).
Proof.
  assert (yielded (guess_generator "??" "" "?a" None) = ["a?"; "a?"]) as ->
    by (by vm_compute).
  split; [done|]. intros [Hn _]%NoDup_cons. apply Hn. left.
Qed.

(** C3. With at least as many unknown positions as present letters, a
    pattern of lower-case letters and question marks, and available and
    present letters in lower case, every yielded guess has the length of the
    pattern, agrees with it on the known positions, has at the unknown
    positions the present letters together with a sub-multiset of the
    available letters of the missing size (the present letters alone when
    the sizes agree), and is in the dictionary when there is one. *)
Theorem yielded_guess_sound (pattern available present : string)
  (dictionary : option (string → bool)) (g : string) :
  String.length present ≤ unknowns pattern →
  Forall (λ c, pattern_char c = true) (chars pattern) →
  Forall (λ c, lowercase c = true) (chars available) →
  Forall (λ c, lowercase c = true) (chars present) →
  g ∈ yielded (guess_generator pattern available present dictionary) →
  String.length g = String.length pattern ∧
  (∀ i c, chars pattern !! i = Some c → c ≠ qmark → chars g !! i = Some c) ∧
  (∃ extra : list ascii,
     extra ⊆+ chars available ∧
     length extra = unknowns pattern - String.length present ∧
     unknown_letters pattern g ≡ₚ chars present ++ extra) ∧
  (unknowns pattern = String.length present →
   unknown_letters pattern g ≡ₚ chars present) ∧
  (∀ has, dictionary = Some has → has g = true).
Proof.
  intros Hle _ Hav%lowercase_no_qmark Hrq%lowercase_no_qmark Hg.
  apply elem_of_yielded in Hg as (perms & perm & Hb & Hin & -> & Hacc).
  pose proof (ordering_letters _ _ _ _ _ Hav Hrq Hb Hin) as Hq.
  pose proof (build_perms_length _ _ _ _ _ Hb Hin) as Hl.
  rewrite substitute_letters in * by done.
  split; [apply length_fill|]. split; [intros i c; apply fill_known|].
  rewrite unknown_letters_fill by done.
  apply (elem_of_build_perms _ _ _ _ _ Hb) in Hin as (combo & Hsub & Hn & Hp).
  split; [|split].
  - exists combo. split; [by apply sublist_submseteq|]. split; [lia|].
    by rewrite <-Hp, (comm (++)).
  - intros Heq. assert (combo = []) as -> by (apply nil_length_inv; lia).
    by rewrite <-Hp.
  - by intros has ->.
Qed.

Lemma yielded_guess_sound_witness :
  String.length "azbx" = String.length "a?b?" ∧
  ∃ extra : list ascii,
    extra ⊆+ chars "xyy" ∧ length extra = 1 ∧
    unknown_letters "a?b?" "azbx" ≡ₚ chars "z" ++ extra.
Proof.
  destruct (yielded_guess_sound "a?b?" "xyy" "z" None "azbx")
    as (H1 & _ & H3 & _).
  - vm_compute. lia.
  - vm_compute. repeat constructor.
  - vm_compute. repeat constructor.
  - vm_compute. repeat constructor.
  - apply (bool_decide_unpack _). by vm_compute.
  - split; [exact H1|exact H3].
Defined.

(** C4. Every non-question-mark character of the pattern stands unchanged
    at the same position of every yielded guess, which has the length of
    the pattern: the guess is the pattern with its unknown positions filled
    from left to right by an ordering of a pool, the pool being a
    combination of available letters followed by the present letters. *)
Theorem known_positions_preserved (pattern available present : string)
  (dictionary : option (string → bool)) (g : string) :
  g ∈ yielded (guess_generator pattern available present dictionary) →
  String.length g = String.length pattern ∧
  (∀ i c, chars pattern !! i = Some c → c ≠ qmark → chars g !! i = Some c) ∧
  ∃ combo ordering : list ascii,
    combo `sublist_of` chars available ∧
    length combo + String.length present = unknowns pattern ∧
    ordering ≡ₚ combo ++ chars present ∧
    g = fill pattern ordering.
Proof.
  intros (perms & perm & Hb & Hin & -> & _)%elem_of_yielded.
  destruct (substitute_ordering pattern perm) as (ordering & Hord & ->).
  split; [apply length_fill|]. split.
  - intros i c. apply fill_known.
  - apply (elem_of_build_perms _ _ _ _ _ Hb) in Hin as (combo & ? & ? & Hp).
    exists combo, ordering. repeat split; [done..|by etrans].
Qed.

Lemma known_positions_preserved_witness :
  String.length "azbx" = String.length "a?b?" ∧
  ∀ i c, chars "a?b?" !! i = Some c → c ≠ qmark → chars "azbx" !! i = Some c.
Proof.
  destruct (known_positions_preserved "a?b?" "xyy" "z" None "azbx") as (H1 & H2 & _).
  - apply (bool_decide_unpack _). by vm_compute.
  - by split.
Defined.

(** C5. For the same pattern, available letters and present letters, a
    guess is yielded under a dictionary exactly when it is yielded without
    one and is a member of the dictionary; so the guesses yielded with a
    dictionary are among those yielded without one, in the same order. *)
Theorem dictionary_filters_guesses (pattern available present : string)
  (has : string → bool) :
  (∀ g, g ∈ yielded (guess_generator pattern available present (Some has)) ↔
        g ∈ yielded (guess_generator pattern available present None) ∧
        has g = true) ∧
  yielded (guess_generator pattern available present (Some has)) ⊆
    yielded (guess_generator pattern available present None) ∧
  yielded (guess_generator pattern available present (Some has)) =
    filter (λ g, has g = true)
      (yielded (guess_generator pattern available present None)).
Proof.
  assert (yielded (guess_generator pattern available present (Some has)) =
    filter (λ g, has g = true)
      (yielded (guess_generator pattern available present None))) as Heq.
  { rewrite !yielded_guess_generator.
    destruct (build_perms pattern available present) as [perms|e]; [|done].
    by rewrite (remaining_None _ (Some has)). }
  split; [|split; [|done]].
  - intros g. rewrite Heq, list_elem_of_filter. tauto.
  - intros g. rewrite Heq. by intros [_ ?]%list_elem_of_filter.
Qed.

(** C6, as the code has it. The alphabet of the pattern is never
    checked: a character of the pattern other than the question mark,
    lower-case letter or not, is kept at its position in every guess.
    Whatever the characters of the pattern, iterating the generator fails
    exactly when there are more present letters than unknown positions, with
    [ValueError]; the failure is raised by the first request, so nothing has
    been yielded before it, and otherwise the iteration ends normally. *)
Theorem failure_only_at_start (pattern available present : string)
  (dictionary : option (string → bool)) :
  let g := guess_generator pattern available present dictionary in
  (ending g = Failed ValueError ↔ unknowns pattern < String.length present) ∧
  (ending g = Finished ↔ String.length present ≤ unknowns pattern) ∧
  (∀ e, ending g = Failed e → (next g).1 = Raise e ∧ yielded g = []) ∧
  (∀ guess i c, guess ∈ yielded g →
     chars pattern !! i = Some c → c ≠ qmark → chars guess !! i = Some c).
Proof.
  intros g. unfold g.
  assert (∀ guess i c,
    guess ∈ yielded (guess_generator pattern available present dictionary) →
    chars pattern !! i = Some c → c ≠ qmark → chars guess !! i = Some c) as Hkept.
  { intros guess i c (perms & perm & _ & _ & -> & _)%elem_of_yielded.
    destruct (substitute_ordering pattern perm) as (ordering & _ & ->).
    apply fill_known. }
  rewrite ending_guess_generator_eq, yielded_guess_generator in *.
  unfold guess_generator, next.
  destruct (decide (unknowns pattern < String.length present)) as [Hlt|Hge].
  - rewrite build_perms_short in * by done. repeat split; try done; try lia.
    by simplify_eq.
  - destruct (build_perms_enough pattern available present) as [perms Hb]; [lia|].
    rewrite Hb in *. repeat split; try done; lia.
Qed.

Lemma failure_only_at_start_witness :
  (next (guess_generator "ab?de" "xyz" "st" None)).1 = Raise ValueError ∧
  yielded (guess_generator "ab?de" "xyz" "st" None) = [].
Proof.
  destruct (failure_only_at_start "ab?de" "xyz" "st" None) as (_ & _ & H & _).
  apply H. vm_compute. reflexivity.
Defined.

(** C6 as stated fails: a pattern with a character that is neither a
    lower-case letter nor a question mark is accepted, and its first
    request yields a guess. *)
Lemma malformed_pattern_accepted :
  (∃ c, c ∈ chars "1?" ∧ pattern_char c = false) ∧
  (next (guess_generator "1?" "b" "" None)).1 = Yield "1b" ∧
  exhaust (guess_generator "1?" "b" "" None) = (["1b"], Finished).
Proof.
  split; [|by vm_compute].
  exists "1"%char. split; [|done]. vm_compute. left.
Qed.

(** C7, as the code has it. When there are more unknown positions than
    present letters, the combinations that get past the check against the
    set of seen combinations are pairwise distinct as strings. When equal
    letters of the available string stand next to each other, they are also
    pairwise distinct as multisets of letters. *)
Theorem selected_combos_distinct (pattern available present : string) :
  String.length present < unknowns pattern →
  ∃ selected : list string,
    selected_combos available
      (Z.of_nat (unknowns pattern) - Z.of_nat (String.length present)) = Ok selected ∧
    build_perms pattern available present =
      Ok (itertools.chain (map (λ combo, _permgen (combo +:+ present)) selected)) ∧
    NoDup selected ∧
    (grouped (chars available) = true →
     ∀ c1 c2, c1 ∈ selected → c2 ∈ selected → chars c1 ≡ₚ chars c2 → c1 = c2).
Proof.
  intros Hlt.
  set (k := (Z.of_nat (unknowns pattern) - Z.of_nat (String.length present))%Z).
  destruct (selected_combos_nonnegative available k) as [selected Hsel]; [lia|].
  exists selected. split; [done|]. split; [|split].
  - rewrite build_perms_selected. fold k.
    rewrite (proj2 (Nat.eqb_neq _ _)) by lia. by rewrite Hsel.
  - unfold selected_combos in Hsel. destruct (_combogen available k); [|done].
    injection Hsel as <-. apply NoDup_skip_seen.
  - intros Hg c1 c2 [H1 _]%(elem_of_selected_combos _ _ _ _ Hsel)
      [H2 _]%(elem_of_selected_combos _ _ _ _ Hsel) Hp.
    apply chars_inj. by apply (grouped_sublist_unique (chars available)).
Qed.

Lemma selected_combos_distinct_witness :
  ∃ selected : list string,
    selected_combos "aabb" 2 = Ok selected ∧ NoDup selected ∧
    ∀ c1 c2, c1 ∈ selected → c2 ∈ selected → chars c1 ≡ₚ chars c2 → c1 = c2.
Proof.
  destruct (selected_combos_distinct "?a??" "aabb" "c") as (sel & H1 & _ & H3 & H4).
  - vm_compute. lia.
  - exists sel. split; [exact H1|]. split; [exact H3|].
    apply H4. vm_compute. reflexivity.
Defined.

(** C7 as stated fails: equal letters that do not stand together give two
    selected combinations with the same letters. *)
Lemma separated_repeats_selected_twice :
  String.length "" < unknowns "??" ∧
  selected_combos "aba" (Z.of_nat (unknowns "??") - Z.of_nat (String.length ""))
    = Ok ["ab"; "aa"; "ba"] ∧
  chars "ab" ≡ₚ chars "ba" ∧ "ab" ≠ "ba".
Proof.
  split; [vm_compute; lia|]. split; [by vm_compute|]. split; [|done].
  apply Permutation_swap.
Qed.

(** C8, as the code has it. For a pattern without unknown position and no
    present letter, the generator yields the pattern itself once if there is
    no dictionary or the pattern is in it, and nothing otherwise. With a
    present letter the first request raises [ValueError]. *)
Theorem complete_pattern_yields_itself (pattern available present : string)
  (dictionary : option (string → bool)) :
  unknowns pattern = 0 →
  (present = "" →
   yielded (guess_generator pattern available present dictionary) =
     (if accepted dictionary pattern then [pattern] else []) ∧
   ending (guess_generator pattern available present dictionary) = Finished) ∧
  (present ≠ "" →
   yielded (guess_generator pattern available present dictionary) = [] ∧
   ending (guess_generator pattern available present dictionary) = Failed ValueError).
Proof.
  intros Hu. split.
  - intros ->.
    assert (build_perms pattern available "" = Ok [""]) as Hb.
    { rewrite build_perms_selected. by rewrite Hu. }
    rewrite yielded_guess_generator, ending_guess_generator_eq, Hb.
    split; [|done]. unfold remaining. simpl.
    rewrite decide_False by apply not_elem_of_empty. simpl.
    rewrite filter_cons, filter_nil. unfold substitute. simpl.
    by destruct (accepted dictionary pattern).
  - intros Hp.
    assert (unknowns pattern < String.length present) as Hlt.
    { rewrite Hu. destruct present; [done|simpl; lia]. }
    by rewrite yielded_guess_generator, ending_guess_generator_eq,
      build_perms_short.
Qed.

Lemma complete_pattern_yields_itself_witness :
  yielded (guess_generator "abcde" "xyz" "" None) = ["abcde"].
Proof.
  pose proof (complete_pattern_yields_itself "abcde" "xyz" "" None) as H.
  destruct H as [H _]; [vm_compute; reflexivity|].
  destruct H as [H _]; [reflexivity|]. exact H.
Defined.

(** C8 as stated fails: a pattern without unknown position, given a present
    letter, is not yielded. *)
Lemma complete_pattern_with_present_fails :
  unknowns "abcde" = 0 ∧
  yielded (guess_generator "abcde" "xyz" "a" None) = [] ∧
  ending (guess_generator "abcde" "xyz" "a" None) = Failed ValueError ∧
  yielded (guess_generator "abcde" "xyz" "a" None) ≠ ["abcde"].
Proof. vm_compute. by repeat split. Qed.

(** C9. With more unknown positions than present letters and no available
    letter at all there is no combination to select: the generator yields
    nothing and ends normally. *)
Theorem empty_available_yields_nothing (pattern present : string)
  (dictionary : option (string → bool)) :
  String.length present < unknowns pattern →
  yielded (guess_generator pattern "" present dictionary) = [] ∧
  ending (guess_generator pattern "" present dictionary) = Finished.
Proof.
  intros Hlt.
  assert (build_perms pattern "" present = Ok []) as Hb.
  { rewrite build_perms_selected.
    rewrite (proj2 (Nat.eqb_neq _ _)) by lia.
    unfold selected_combos. rewrite combogen_nonnegative by lia.
    destruct (Z.to_nat _) as [|k] eqn:Hk; [lia|]. done. }
  by rewrite yielded_guess_generator, ending_guess_generator_eq, Hb.
Qed.

Lemma empty_available_yields_nothing_witness :
  yielded (guess_generator "?????" "" "aet" None) = [] ∧
  ending (guess_generator "?????" "" "aet" None) = Finished.
Proof. apply (empty_available_yields_nothing "?????" "aet" None). vm_compute. lia. Defined.

(** C10. With more present letters than unknown positions, the call gives
    a generator object and runs nothing; the first request for an element
    raises [ValueError] and closes the generator, and no guess is ever
    yielded. *)
Theorem too_many_present_raises (pattern available present : string)
  (dictionary : option (string → bool)) :
  unknowns pattern < String.length present →
  guess_generator pattern available present dictionary =
    Unstarted pattern available present dictionary ∧
  next (guess_generator pattern available present dictionary) =
    (Raise ValueError, Closed) ∧
  next Closed = (StopIteration, Closed) ∧
  (∀ n, (iterate n (guess_generator pattern available present dictionary)).1 = []) ∧
  yielded (guess_generator pattern available present dictionary) = [] ∧
  ending (guess_generator pattern available present dictionary) = Failed ValueError.
Proof.
  intros Hlt. pose proof (build_perms_short pattern available _ Hlt) as Hb.
  rewrite yielded_guess_generator, ending_guess_generator_eq.
  unfold guess_generator, next. rewrite Hb. repeat split.
  intros [|n]; [done|]. cbn [iterate next]. by rewrite Hb.
Qed.

Lemma too_many_present_raises_witness :
  next (guess_generator "ab?de" "xyz" "st" None) = (Raise ValueError, Closed) ∧
  yielded (guess_generator "ab?de" "xyz" "st" None) = [].
Proof.
  pose proof (too_many_present_raises "ab?de" "xyz" "st" None) as H.
  destruct H as (_ & Hnext & _ & _ & Hy & _); [vm_compute; lia|]. by split.
Defined.

(** ** Further properties of the helpers *)

Section Distinct.
Context {A : Type} `{EqDecision A}.
Implicit Types (x : A) (l s : list A).

Lemma occurrences_elem_of x l : x ∈ l → 0 < occurrences x l.
Proof.
  induction 1 as [x l|x y l _ IH]; rewrite occurrences_cons.
  - rewrite decide_True by done. lia.
  - lia.
Qed.

Lemma NoDup_occurrences l : (∀ x, x ∈ l → occurrences x l = 1) → NoDup l.
Proof.
  induction l as [|a l IH]; intros Hocc; constructor.
  - intros Ha. specialize (Hocc a ltac:(left)).
    rewrite occurrences_cons, decide_True in Hocc by done.
    apply occurrences_elem_of in Ha. lia.
  - apply IH. intros x Hx. pose proof (occurrences_elem_of _ _ Hx).
    specialize (Hocc x ltac:(by right)). rewrite occurrences_cons in Hocc.
    destruct (decide (x = a)); lia.
Qed.

End Distinct.

Section DistinctOrderings.
Context {A : Type} `{EqDecision A}.
Implicit Types (x : A) (l s : list A).

Lemma repeats_from_left_NoDup l : NoDup l → repeats_from_left l = 1.
Proof.
  induction 1 as [|x l Hx _ IH]; simpl; [done|].
  by rewrite occurrences_not_elem_of, IH.
Qed.

(** A pool without repeated element has no repeated ordering. *)
Lemma NoDup_permutations l : NoDup l → NoDup (itertools.permutations l).
Proof.
  intros Hl. apply NoDup_occurrences. intros s Hs%elem_of_permutations.
  by rewrite (occurrences_permutations l s), repeats_from_left_NoDup.
Qed.

Lemma subsequences_long l k : length l < k → itertools.subsequences l k = [].
Proof.
  revert k. induction l as [|x l IH]; intros [|k] Hk; simpl in *; try lia.
  - done.
  - by rewrite !IH by lia.
Qed.

Lemma subsequences_all l : itertools.subsequences l (length l) = [l].
Proof.
  induction l as [|x l IH]; simpl; [done|].
  by rewrite IH, (subsequences_long l (S (length l))) by lia.
Qed.

(** There are [n! / (k! (n - k)!)] subsequences of length [k] of a pool of
    [n] elements. *)
Lemma length_subsequences l k :
  k ≤ length l →
  length (itertools.subsequences l k) * (fact k * fact (length l - k)) =
    fact (length l).
Proof.
  revert k. induction l as [|x l IH]; intros [|k] Hk; simpl in Hk; try lia.
  - done.
  - cbn [itertools.subsequences length]. rewrite Nat.sub_0_r.
    change (fact 0) with 1. by rewrite !Nat.mul_1_l.
  - cbn [itertools.subsequences]. rewrite length_app, length_map.
    change (length (x :: l)) with (S (length l)).
    pose proof (IH k ltac:(lia)) as IHk.
    destruct (decide (k = length l)) as [->|Hne].
    + rewrite (subsequences_long l (S (length l))) by lia.
      rewrite Nat.sub_diag in *. change (fact 0) with 1 in *.
      change (fact (S (length l))) with (S (length l) * fact (length l)).
      simpl length. nia.
    + pose proof (IH (S k) ltac:(lia)) as IHSk.
      replace (length l - k) with (S (length l - S k)) in * by lia.
      replace (S (length l) - S k) with (S (length l - S k)) by lia.
      set (a := length (itertools.subsequences l k)) in *.
      set (b := length (itertools.subsequences l (S k))) in *.
      set (m := length l - S k) in *.
      change (fact (S (length l))) with (S (length l) * fact (length l)).
      change (fact (S k)) with (S k * fact k) in *.
      change (fact (S m)) with (S m * fact m) in *.
      assert (S (length l) = S k + S m) as -> by lia.
      set (fk := fact k) in *. set (fm := fact m) in *.
      set (fn := fact (length l)) in *. nia.
Qed.
End DistinctOrderings.

(** X1. [_permgen(p)] gives [len(p)!] strings, each of the length of [p];
    a string is among them exactly when it is a rearrangement of the
    characters of [p]. *)
Theorem permgen_enumerates (p : string) :
  length (_permgen p) = fact (String.length p) ∧
  (∀ s, s ∈ _permgen p ↔ chars p ≡ₚ chars s) ∧
  (∀ s, s ∈ _permgen p → String.length s = String.length p).
Proof.
  split; [|split].
  - unfold _permgen. by rewrite length_map, length_permutations, length_chars.
  - intros s. apply elem_of_permgen.
  - intros s Hs%elem_of_permgen. by rewrite <-!length_chars, Hs.
Qed.

(** X2. Every rearrangement of the characters of [p] is given by
    [_permgen(p)] as many times as the product of the factorials of the
    multiplicities of the characters of [p]. *)
Theorem permgen_multiplicity (p s : string) :
  chars p ≡ₚ chars s → occurrences s (_permgen p) = repeats (chars p).
Proof.
  intros Hp. rewrite <-(join_chars s). unfold _permgen.
  rewrite occurrences_join, (occurrences_permutations _ _ Hp).
  apply repeats_from_left_repeats.
Qed.

Lemma permgen_multiplicity_witness :
  occurrences "aba" (_permgen "aab") = repeats (chars "aab").
Proof. apply (permgen_multiplicity "aab" "aba"). vm_compute. apply Permutation_skip, Permutation_swap. Defined.

(** X3. When the characters of [p] are pairwise distinct, [_permgen(p)]
    gives no string twice. *)
Theorem permgen_distinct_letters (p : string) :
  NoDup (chars p) → NoDup (_permgen p).
Proof.
  intros Hp. unfold _permgen. apply NoDup_fmap_2_strong.
  - intros t1 t2 _ _. apply join_inj.
  - by apply NoDup_permutations.
Qed.

Lemma permgen_distinct_letters_witness : NoDup (_permgen "abc").
Proof.
  apply (permgen_distinct_letters "abc").
  apply (bool_decide_unpack _). by vm_compute.
Defined.


(** X5. For [0 <= k <= len(p)], [_combogen(p, k)] gives
    [len(p)! / (k! (len(p) - k)!)] strings; for [k > len(p)] it gives
    none. *)
Theorem combogen_count (p : string) (k : nat) (combos : list string) :
  _combogen p (Z.of_nat k) = Ok combos →
  (k ≤ String.length p →
   length combos * (fact k * fact (String.length p - k)) =
     fact (String.length p)) ∧
  (String.length p < k → combos = []).
Proof.
  rewrite combogen_nonnegative, Nat2Z.id by lia. intros [= <-].
  rewrite <-length_chars, length_map. split.
  - apply length_subsequences.
  - intros Hk. by rewrite subsequences_long.
Qed.

Lemma combogen_count_witness :
  ∃ combos, _combogen "abcde" 2 = Ok combos ∧
    length combos * (fact 2 * fact 3) = fact 5.
Proof.
  eexists. split; [reflexivity|].
  refine (proj1 (combogen_count "abcde" 2 _ _) _); [reflexivity|].
  vm_compute. lia.
Defined.

(** X6. Taking no character gives the empty string once, and taking as
    many characters as [p] has gives [p] itself once. *)
Theorem combogen_none_or_all (p : string) :
  _combogen p 0 = Ok [""] ∧
  _combogen p (Z.of_nat (String.length p)) = Ok [p].
Proof.
  rewrite !combogen_nonnegative by lia. split.
  - by destruct (chars p).
  - by rewrite Nat2Z.id, <-length_chars, subsequences_all; simpl;
      rewrite join_chars.
Qed.

(** ** Further properties of [guess_generator] *)

Section Pools.
Implicit Types (pg av rq perm g p : string) (l : list ascii)
  (dict : option (string → bool)).

Lemma elem_of_build_perms_submseteq pg av rq perms perm :
  build_perms pg av rq = Ok perms →
  perm ∈ perms ↔
    ∃ combo : list ascii,
      combo ⊆+ chars av ∧
      length combo + String.length rq = unknowns pg ∧
      combo ++ chars rq ≡ₚ chars perm.
Proof.
  intros Hb. rewrite (elem_of_build_perms _ _ _ _ _ Hb). split.
  - intros (combo & ?%sublist_submseteq & ? & ?). by exists combo.
  - intros (combo & (combo' & Hc & Hsub)%submseteq_sublist_r & Hlen & Hp).
    exists combo'. split; [done|]. split.
    + by rewrite <-(Permutation_length Hc).
    + by rewrite <-Hc.
Qed.

(** The yielded guesses, in terms of the pools of letters. *)
Lemma elem_of_yielded_pool pg av rq dict g :
  g ∈ yielded (guess_generator pg av rq dict) ↔
    ∃ (perm : string) (combo : list ascii),
      combo ⊆+ chars av ∧
      length combo + String.length rq = unknowns pg ∧
      combo ++ chars rq ≡ₚ chars perm ∧
      g = substitute pg perm ∧ accepted dict g = true.
Proof.
  rewrite elem_of_yielded. split.
  - intros (perms & perm & Hb & Hin & ? & ?).
    apply (elem_of_build_perms_submseteq _ _ _ _ _ Hb) in Hin
      as (combo & ? & ? & ?).
    by exists perm, combo.
  - intros (perm & combo & ? & Hlen & ? & ? & ?).
    destruct (build_perms_enough pg av rq) as [perms Hb]; [lia|].
    exists perms, perm. split; [done|]. split; [|done].
    apply (elem_of_build_perms_submseteq _ _ _ _ _ Hb). by exists combo.
Qed.

Lemma fill_no_qmark p l :
  unknowns p ≤ length l → qmark ∉ l → qmark ∉ chars (fill p l).
Proof.
  unfold unknowns. revert l. induction p as [|a p IH]; intros l; simpl.
  - intros _ _. apply not_elem_of_nil.
  - destruct (Ascii.eqb_spec a qmark) as [->|Ha]; simpl.
    + destruct l as [|b l]; simpl; [lia|].
      rewrite !not_elem_of_cons. intros ? [? ?]. split; [done|].
      apply IH; [lia|done].
    + intros ? ?. rewrite not_elem_of_cons. split; [congruence|]. by apply IH.
Qed.

(** The characters of a guess are the known characters of the pattern
    and the letters filled in. *)
Lemma fill_Permutation p l :
  length l = unknowns p →
  chars (fill p l) ≡ₚ filter (λ c, c ≠ qmark) (chars p) ++ l.
Proof.
  unfold unknowns. revert l. induction p as [|a p IH]; intros l; simpl.
  - by destruct l.
  - rewrite filter_cons. destruct (Ascii.eqb_spec a qmark) as [->|Ha]; simpl.
    + destruct l as [|b l]; simpl; [done|]. intros [= Hl].
      by rewrite IH, Permutation_middle.
    + rewrite decide_True by done. intros Hl. simpl. by rewrite IH.
Qed.
End Pools.

(** X7. When neither the available nor the present letters contain a
    question mark, the guesses yielded without a dictionary are exactly the
    pattern filled from left to right with the arrangements of the pools,
    a pool being the present letters together with a sub-multiset of the
    available letters of the size that the unknown positions leave. *)
Theorem guesses_complete (pattern available present g : string) :
  qmark ∉ chars available → qmark ∉ chars present →
  g ∈ yielded (guess_generator pattern available present None) ↔
    ∃ extra s : list ascii,
      extra ⊆+ chars available ∧
      length extra + String.length present = unknowns pattern ∧
      s ≡ₚ chars present ++ extra ∧
      g = fill pattern s.
Proof.
  intros Hav Hrq. rewrite elem_of_yielded_pool. split.
  - intros (perm & combo & Hsub & Hlen & Hp & -> & _).
    exists combo, (chars perm). split; [done|]. split; [done|].
    split; [by rewrite <-Hp, (comm (++))|].
    apply substitute_letters. rewrite <-Hp, elem_of_app.
    intros [?|?]; [|done]. by apply Hav, (elem_of_submseteq combo).
  - intros (extra & s & Hsub & Hlen & Hs & ->).
    exists (join s), extra. rewrite chars_join.
    split; [done|]. split; [done|]. split; [by rewrite Hs, (comm (++))|].
    split; [|done]. rewrite substitute_letters; rewrite chars_join; [done|].
    rewrite Hs, elem_of_app. intros [?|?]; [done|].
    by apply Hav, (elem_of_submseteq extra).
Qed.

Lemma guesses_complete_witness :
  "axbz" ∈ yielded (guess_generator "a?b?" "xyy" "z" None).
Proof.
  apply (guesses_complete "a?b?" "xyy" "z" "axbz").
  - apply (bool_decide_unpack _). by vm_compute.
  - apply (bool_decide_unpack _). by vm_compute.
  - exists (chars "x"), (chars "xz"). split.
    + apply submseteq_skip, submseteq_nil_l.
    + split; [reflexivity|]. split; [apply Permutation_swap|reflexivity].
Defined.

(** X8. The order in which the available letters and the present letters
    are given does not matter: giving the same letters in another order
    yields the same guesses, and the iteration ends the same way. *)
Theorem guesses_reordered_letters (pattern available present : string)
  (available' present' : string) (dictionary : option (string → bool)) :
  chars available ≡ₚ chars available' →
  chars present ≡ₚ chars present' →
  (∀ g, g ∈ yielded (guess_generator pattern available present dictionary) ↔
        g ∈ yielded (guess_generator pattern available' present' dictionary)) ∧
  ending (guess_generator pattern available present dictionary) =
    ending (guess_generator pattern available' present' dictionary).
Proof.
  intros Hav Hrq.
  assert (String.length present = String.length present') as Hlen.
  { rewrite <-!length_chars. by apply Permutation_length. }
  split.
  - intros g. rewrite !elem_of_yielded_pool.
    split; intros (perm & combo & Hsub & Hl & Hp & ? & ?); exists perm, combo.
    + by rewrite <-Hav, <-Hrq, <-Hlen.
    + by rewrite Hav, Hrq, Hlen.
  - rewrite !ending_guess_generator_eq.
    destruct (decide (unknowns pattern < String.length present)) as [Hlt|Hge].
    + rewrite !build_perms_short; [done|lia..].
    + destruct (build_perms_enough pattern available present) as [? ->]; [lia|].
      by destruct (build_perms_enough pattern available' present')
        as [? ->]; [lia|].
Qed.

Lemma guesses_reordered_letters_witness :
  "azbw" ∈ yielded (guess_generator "a?b?" "xyy" "zw" None) ↔
  "azbw" ∈ yielded (guess_generator "a?b?" "yxy" "wz" None).
Proof.
  apply (guesses_reordered_letters "a?b?" "xyy" "zw" "yxy" "wz" None).
  - apply Permutation_swap.
  - apply Permutation_swap.
Defined.

(** X9. Giving more available letters never loses a guess: when the
    available letters are a sub-multiset of other available letters, every
    guess yielded with the former is yielded with the latter. *)
Theorem guesses_more_available (pattern available available' present : string)
  (dictionary : option (string → bool)) :
  chars available ⊆+ chars available' →
  yielded (guess_generator pattern available present dictionary) ⊆
    yielded (guess_generator pattern available' present dictionary).
Proof.
  intros Hav g. rewrite !elem_of_yielded_pool.
  intros (perm & combo & Hsub & ?). exists perm, combo.
  split; [by etrans|done].
Qed.

Lemma guesses_more_available_witness :
  yielded (guess_generator "a?b?" "xy" "z" None) ⊆
    yielded (guess_generator "a?b?" "wxy" "z" None).
Proof.
  apply (guesses_more_available "a?b?" "xy" "wxy" "z" None).
  apply submseteq_cons, reflexivity.
Defined.

(** X10. When neither the available nor the present letters contain a
    question mark, no yielded guess contains one: every unknown position
    has been filled. *)
Theorem guesses_have_no_unknown (pattern available present : string)
  (dictionary : option (string → bool)) (g : string) :
  qmark ∉ chars available → qmark ∉ chars present →
  g ∈ yielded (guess_generator pattern available present dictionary) →
  (qmark ∉ chars g) ∧ unknowns g = 0.
Proof.
  intros Hav Hrq (perms & perm & Hb & Hin & -> & _)%elem_of_yielded.
  pose proof (ordering_letters _ _ _ _ _ Hav Hrq Hb Hin) as Hq.
  pose proof (build_perms_length _ _ _ _ _ Hb Hin) as Hl.
  rewrite substitute_letters by done.
  assert (qmark ∉ chars (fill pattern (chars perm))) as Hno.
  { apply fill_no_qmark; [lia|done]. }
  split; [done|]. unfold unknowns.
  induction (fill pattern (chars perm)) as [|a s IH]; simpl; [done|].
  simpl in Hno. apply not_elem_of_cons in Hno as [Ha Hs].
  by rewrite eqb_qmark_false, IH by done.
Qed.

Lemma guesses_have_no_unknown_witness : qmark ∉ chars "azbx".
Proof.
  refine (proj1 (guesses_have_no_unknown "a?b?" "xyy" "z" None "azbx" _ _ _));
    apply (bool_decide_unpack _); by vm_compute.
Defined.

(** X12. When neither the available nor the present letters contain a
    question mark, the characters of a yielded guess are the known
    characters of the pattern, the present letters and a sub-multiset of the
    available letters; so every present letter occurs in the guess at least
    as often as among the present letters. *)
Theorem present_letters_in_guess (pattern available present : string)
  (dictionary : option (string → bool)) (g : string) :
  qmark ∉ chars available → qmark ∉ chars present →
  g ∈ yielded (guess_generator pattern available present dictionary) →
  (∃ extra : list ascii,
     extra ⊆+ chars available ∧
     length extra + String.length present = unknowns pattern ∧
     chars g ≡ₚ
       filter (λ c, c ≠ qmark) (chars pattern) ++ chars present ++ extra) ∧
  (∀ c, occurrences c (chars present) ≤ occurrences c (chars g)).
Proof.
  intros Hav Hrq (perms & perm & Hb & Hin & -> & _)%elem_of_yielded.
  pose proof (ordering_letters _ _ _ _ _ Hav Hrq Hb Hin) as Hq.
  pose proof (build_perms_length _ _ _ _ _ Hb Hin) as Hl.
  rewrite substitute_letters by done.
  apply (elem_of_build_perms_submseteq _ _ _ _ _ Hb) in Hin
    as (combo & Hsub & Hlen & Hp).
  assert (chars (fill pattern (chars perm)) ≡ₚ
    filter (λ c, c ≠ qmark) (chars pattern) ++ chars present ++ combo) as Hg.
  { by rewrite fill_Permutation, <-Hp, (comm (++) combo). }
  split; [by exists combo|].
  intros c. rewrite (occurrences_Permutation c _ _ Hg), !occurrences_app. lia.
Qed.

Lemma present_letters_in_guess_witness :
  occurrences "z"%char (chars "z") ≤ occurrences "z"%char (chars "azbx").
Proof.
  refine (proj2 (present_letters_in_guess "a?b?" "xyy" "z" None "azbx" _ _ _)
            "z"%char);
    apply (bool_decide_unpack _); by vm_compute.
Defined.

(** X13. When the unknown positions that the present letters leave are
    more than the available letters, the generator yields nothing and ends
    normally. *)
Theorem too_few_available (pattern available present : string)
  (dictionary : option (string → bool)) :
  String.length present + String.length available < unknowns pattern →
  yielded (guess_generator pattern available present dictionary) = [] ∧
  ending (guess_generator pattern available present dictionary) = Finished.
Proof.
  intros Hlt.
  assert (build_perms pattern available present = Ok []) as Hb.
  { rewrite build_perms_selected.
    rewrite (proj2 (Nat.eqb_neq _ _)) by lia.
    unfold selected_combos. rewrite combogen_nonnegative by lia.
    rewrite subsequences_long; [done|]. rewrite length_chars. lia. }
  by rewrite yielded_guess_generator, ending_guess_generator_eq, Hb.
Qed.

Lemma too_few_available_witness :
  yielded (guess_generator "?????" "xy" "ae" None) = [].
Proof.
  refine (proj1 (too_few_available "?????" "xy" "ae" None _)).
  vm_compute. lia.
Defined.

(** X14. When there are as many present letters as unknown positions, the
    available letters are not looked at: any two strings of available
    letters give the same guesses in the same order. *)
Theorem available_unused_when_full (pattern available available' present : string)
  (dictionary : option (string → bool)) :
  unknowns pattern = String.length present →
  exhaust (guess_generator pattern available present dictionary) =
    exhaust (guess_generator pattern available' present dictionary).
Proof.
  intros Hu. rewrite !exhaust_guess_generator, !build_perms_selected.
  by rewrite (proj2 (Nat.eqb_eq _ _) Hu).
Qed.

Lemma available_unused_when_full_witness :
  exhaust (guess_generator "?a?" "xyz" "bc" None) =
    exhaust (guess_generator "?a?" "" "bc" None).
Proof. apply (available_unused_when_full "?a?" "xyz" "" "bc" None). reflexivity. Defined.

Section DistinctLetters.
Implicit Types (pg av rq perm : string) (l : list ascii).

Lemma skip_seen_id (items : list string) (seen : gset string) :
  NoDup items → (∀ x, x ∈ items → x ∉ seen) → skip_seen items seen = items.
Proof.
  revert seen. induction items as [|y items IH]; intros seen; simpl; [done|].
  intros [Hy Hnd]%NoDup_cons Hseen.
  rewrite decide_False by (apply Hseen; left). f_equal. apply IH; [done|].
  intros x Hx. rewrite not_elem_of_union, not_elem_of_singleton.
  split; [by intros ->|]. apply Hseen. by right.
Qed.

Lemma remaining_None_map pg (perms : list string) :
  remaining pg None perms ∅ = map (substitute pg) (skip_seen perms ∅).
Proof.
  unfold remaining. simpl. induction (map _ _) as [|x l IH]; [done|].
  by rewrite filter_cons, decide_True, IH by done.
Qed.

Lemma NoDup_concat_map {A B} (f : A → list B) (xs : list A) :
  NoDup xs → (∀ x, x ∈ xs → NoDup (f x)) →
  (∀ x1 x2 y, x1 ∈ xs → x2 ∈ xs → y ∈ f x1 → y ∈ f x2 → x1 = x2) →
  NoDup (concat (map f xs)).
Proof.
  induction xs as [|x xs IH]; simpl; [constructor|].
  intros [Hx Hnd]%NoDup_cons Hf Hdisj. apply NoDup_app. split; [|split].
  - apply Hf. left.
  - intros y Hy (ys & Hin & (x' & -> & Hx')%list_elem_of_fmap)%elem_of_concat.
    apply Hx. by rewrite (Hdisj x x' y) by (done || by left || by right).
  - apply IH; [done|..].
    + intros. apply Hf. by right.
    + intros x1 x2 y ? ?. apply Hdisj; by right.
Qed.

Lemma NoDup_subsequences {A} (l : list A) k :
  NoDup l → NoDup (itertools.subsequences l k).
Proof.
  revert k. induction l as [|x l IH]; intros [|k] Hl; simpl;
    try (apply NoDup_singleton || constructor).
  apply NoDup_cons in Hl as [Hx Hl]. apply NoDup_app. split; [|split].
  - apply NoDup_fmap_2_strong; [|by apply IH]. by intros ?? _ _ [= ?].
  - intros s (s' & -> & _)%list_elem_of_fmap [Hsub _]%elem_of_subsequences.
    apply Hx, (elem_of_sublist _ _ _ ltac:(left) Hsub).
  - by apply IH.
Qed.

Lemma grouped_NoDup l : NoDup l → grouped l = true.
Proof.
  induction 1 as [|x l Hx _ IH]; [done|]. apply grouped_cons. by split.
Qed.

(** Without repeated letter, no ordering is made twice. *)
Lemma NoDup_build_perms pg av rq perms :
  NoDup (chars av ++ chars rq) → build_perms pg av rq = Ok perms → NoDup perms.
Proof.
  intros Hnd. pose proof Hnd as (Hav & _ & Hrq)%NoDup_app.
  rewrite build_perms_selected.
  destruct (Nat.eqb _ _).
  { intros [= <-]. unfold _permgen. apply NoDup_fmap_2_strong.
    - intros ?? _ _. apply join_inj.
    - by apply NoDup_permutations. }
  destruct (selected_combos av _) as [selected|] eqn:Hsel; [|done].
  intros [= <-]. unfold itertools.chain. apply NoDup_concat_map.
  - unfold selected_combos in Hsel. destruct (_combogen av _); [|done].
    injection Hsel as <-. apply NoDup_skip_seen.
  - intros combo [Hsub _]%(elem_of_selected_combos _ _ _ _ Hsel).
    unfold _permgen. apply NoDup_fmap_2_strong.
    + intros ?? _ _. apply join_inj.
    + apply NoDup_permutations. rewrite chars_app.
      apply (sublist_NoDup _ _ Hnd). by apply sublist_app.
  - intros c1 c2 perm [H1 _]%(elem_of_selected_combos _ _ _ _ Hsel)
      [H2 _]%(elem_of_selected_combos _ _ _ _ Hsel)
      Hp1%elem_of_permgen Hp2%elem_of_permgen.
    rewrite chars_app in Hp1, Hp2. apply chars_inj.
    apply (grouped_sublist_unique (chars av)); [by apply grouped_NoDup|done..|].
    apply (Permutation_app_inv_r (chars rq)). by rewrite Hp1, Hp2.
Qed.

(** The number of orderings made when no available letter is repeated. *)
Lemma length_build_perms pg av rq perms :
  NoDup (chars av) → build_perms pg av rq = Ok perms →
  unknowns pg - String.length rq ≤ String.length av →
  length perms *
    (fact (unknowns pg - String.length rq) *
     fact (String.length av - (unknowns pg - String.length rq))) =
  fact (String.length av) * fact (unknowns pg).
Proof.
  intros Hav Hb Hk.
  assert (String.length rq ≤ unknowns pg) as Hle.
  { destruct (decide (String.length rq ≤ unknowns pg)); [done|].
    by rewrite build_perms_short in Hb by lia. }
  revert Hb. rewrite build_perms_selected.
  destruct (Nat.eqb_spec (unknowns pg) (String.length rq)) as [Heq|Hne].
  { intros [= <-]. unfold _permgen.
    rewrite length_map, length_permutations, length_chars, Heq.
    rewrite Nat.sub_diag, Nat.sub_0_r. change (fact 0) with 1. lia. }
  unfold selected_combos. rewrite combogen_nonnegative by lia.
  replace (Z.to_nat (Z.of_nat (unknowns pg) - Z.of_nat (String.length rq)))
    with (unknowns pg - String.length rq) by lia.
  set (k := unknowns pg - String.length rq) in *.
  intros [= <-]. rewrite skip_seen_id.
  - unfold itertools.chain. rewrite <-flat_map_concat_map.
    rewrite (length_flat_map_const _ _ (fact (unknowns pg))).
    + rewrite length_map. pose proof (length_subsequences (chars av) k) as Hc.
      rewrite length_chars in Hc. specialize (Hc Hk).
      set (c := length (itertools.subsequences (chars av) k)) in *.
      set (fu := fact (unknowns pg)) in *. nia.
    + intros combo (t & -> & [_ Ht]%elem_of_subsequences)%list_elem_of_fmap.
      unfold _permgen.
      rewrite length_map, length_permutations, chars_app, length_app.
      rewrite chars_join, length_chars. f_equal. lia.
  - apply NoDup_fmap_2_strong; [|by apply NoDup_subsequences].
    intros ?? _ _. apply join_inj.
  - intros. apply not_elem_of_empty.
Qed.
End DistinctLetters.

(** X15. When no letter occurs twice among the available and present
    letters, and the available letters are enough for the [k = u - r]
    unknown positions that the present letters leave, the generator without
    dictionary yields [C(n, k) * u!] guesses, for [n] available letters and
    [u] unknown positions: one for every ordering of every pool. *)
Theorem distinct_letters_count (pattern available present : string) :
  NoDup (chars available ++ chars present) →
  String.length present ≤ unknowns pattern →
  unknowns pattern - String.length present ≤ String.length available →
  length (yielded (guess_generator pattern available present None)) *
    (fact (unknowns pattern - String.length present) *
     fact (String.length available -
           (unknowns pattern - String.length present))) =
  fact (String.length available) * fact (unknowns pattern).
Proof.
  intros Hnd Hle Hk. rewrite yielded_guess_generator.
  destruct (build_perms_enough pattern available present) as [perms Hb];
    [done|].
  rewrite Hb, remaining_None_map, length_map, skip_seen_id.
  - apply (length_build_perms _ _ _ _ (proj1 (proj1 (NoDup_app _ _) Hnd)) Hb Hk).
  - by apply (NoDup_build_perms _ _ _ _ Hnd Hb).
  - intros. apply not_elem_of_empty.
Qed.

Lemma distinct_letters_count_witness :
  length (yielded (guess_generator "s????" "eort" "" None)) *
    (fact 4 * fact 0) = fact 4 * fact 4.
Proof.
  apply (distinct_letters_count "s????" "eort" "").
  - apply (bool_decide_unpack _). by vm_compute.
  - vm_compute. lia.
  - vm_compute. lia.
Defined.

(** X16. When there are as many present letters as unknown positions, and
    the present letters are pairwise distinct and none a question mark, the
    generator without dictionary yields one guess for each of the [r!]
    orderings that [_permgen] gives, in that order: the pattern filled from
    left to right with the ordering. *)
Theorem distinct_present_in_order (pattern available present : string) :
  unknowns pattern = String.length present →
  NoDup (chars present) → qmark ∉ chars present →
  yielded (guess_generator pattern available present None) =
    map (λ s, fill pattern (chars s)) (_permgen present) ∧
  length (yielded (guess_generator pattern available present None)) =
    fact (String.length present).
Proof.
  intros Hu Hnd Hq.
  assert (yielded (guess_generator pattern available present None) =
    map (λ s, fill pattern (chars s)) (_permgen present)) as Heq.
  { rewrite yielded_guess_generator, build_perms_selected.
    rewrite (proj2 (Nat.eqb_eq _ _) Hu), remaining_None_map, skip_seen_id.
    - apply map_ext_in. intros s Hs%list_elem_of_In%elem_of_permgen.
      apply substitute_letters. by rewrite <-Hs.
    - unfold _permgen. apply NoDup_fmap_2_strong.
      + intros ?? _ _. apply join_inj.
      + by apply NoDup_permutations.
    - intros. apply not_elem_of_empty. }
  split; [done|].
  rewrite Heq. unfold _permgen.
  by rewrite !length_map, length_permutations, length_chars.
Qed.

Lemma distinct_present_in_order_witness :
  yielded (guess_generator "?a?" "xyz" "bc" None) =
    map (λ s, fill "?a?" (chars s)) (_permgen "bc").
Proof.
  refine (proj1 (distinct_present_in_order "?a?" "xyz" "bc" _ _ _)).
  - reflexivity.
  - apply (bool_decide_unpack _). by vm_compute.
  - apply (bool_decide_unpack _). by vm_compute.
Defined.

(** ** Properties of the command line front end *)

Section Split.
Implicit Types (s w word : string) (words : list string).

Lemma elem_of_split_words s word w :
  Forall (λ c, isspace c = false) (chars word) →
  w ∈ split_words s word →
  w ≠ "" ∧ Forall (λ c, isspace c = false) (chars w).
Proof.
  revert word. induction s as [|c s IH]; intros word Hword; simpl.
  - destruct (decide (word = "")); [by intros ?%elem_of_nil|].
    by intros ->%list_elem_of_singleton.
  - destruct (isspace c) eqn:Hc.
    + destruct (decide (word = "")); [by apply IH|].
      intros [->|?]%elem_of_cons; [done|]. by apply (IH "").
    + apply IH. rewrite chars_app. apply Forall_app. split; [done|].
      by repeat constructor.
Qed.

(** A string of white space has no word. *)
Lemma split_words_blank s :
  Forall (λ c, isspace c = true) (chars s) → split_words s "" = [].
Proof.
  induction s as [|c s IH]; simpl; [done|].
  intros [Hc Hs]%Forall_cons. rewrite Hc. simpl. by apply IH.
Qed.

Lemma append_empty_r w : w +:+ "" = w.
Proof. apply chars_inj. by rewrite chars_app, app_nil_r. Qed.

Lemma split_words_app w s word :
  Forall (λ c, isspace c = false) (chars w) →
  split_words (w +:+ s) word = split_words s (word +:+ w).
Proof.
  revert word. induction w as [|c w IH]; intros word; simpl.
  - intros _. by rewrite append_empty_r.
  - intros [Hc Hw]%Forall_cons. rewrite Hc, IH by done. f_equal.
    apply chars_inj. rewrite !chars_app. simpl. by rewrite <-app_assoc.
Qed.

Lemma split_words_space s word :
  word ≠ "" → split_words (" " +:+ s) word = word :: split_words s "".
Proof. intros Hw. simpl. by rewrite decide_False. Qed.

(** Splitting words that were put together with single spaces gives the
    words back. *)
Lemma str_split_spaced words :
  Forall (λ w, w ≠ "" ∧ Forall (λ c, isspace c = false) (chars w)) words →
  str_split (spaced words) = words.
Proof.
  unfold str_split. induction 1 as [|w words [Hw Hc] Hwords IH]; [done|].
  destruct words as [|w' words].
  - cbn [spaced]. rewrite <-(append_empty_r w) at 1.
    rewrite split_words_app by done. simpl. by rewrite decide_False.
  - change (spaced (w :: w' :: words))
      with (w +:+ " " +:+ spaced (w' :: words)).
    by rewrite split_words_app, split_words_space, IH.
Qed.
End Split.

Lemma yielded_dictionary_set (pg av rq d : string) :
  yielded (guess_generator pg av rq (Some (member (dictionary_set d)))) =
    filter (λ g, g ∈ str_split d) (yielded (guess_generator pg av rq None)).
Proof.
  rewrite !yielded_guess_generator.
  destruct (build_perms pg av rq) as [perms|e]; [|done].
  rewrite (remaining_None _ (Some _)). apply list_filter_iff. intros g. simpl.
  unfold member, dictionary_set.
  by rewrite bool_decide_eq_true, elem_of_list_to_set.
Qed.

(** X17. With a dictionary option, [_cli_parse] prints the guesses that it
    prints without one and that are words of the option's string, in the
    same order; so every printed line is one of these words, is not empty
    and has no white space. *)
Theorem cli_prints_dictionary_words (w a d : string) (p : option string) :
  let printed :=
    (_cli_parse {| argparse.word := w; argparse.available := a;
                   argparse.present := p; argparse.dictionary := Some d |}).1 in
  printed =
    filter (λ g, g ∈ str_split d)
      (_cli_parse {| argparse.word := w; argparse.available := a;
                     argparse.present := p; argparse.dictionary := None |}).1 ∧
  ∀ line, line ∈ printed →
    line ∈ str_split d ∧ line ≠ "" ∧
    Forall (λ c, isspace c = false) (chars line).
Proof.
  unfold _cli_parse. simpl. fold (yielded (guess_generator w a
    match p with Some p0 => p0 | None => "" end
    (Some (member (dictionary_set d))))).
  fold (yielded (guess_generator w a
    match p with Some p0 => p0 | None => "" end None)).
  rewrite yielded_dictionary_set. split; [done|].
  intros line [Hd _]%list_elem_of_filter. split; [done|].
  by apply (elem_of_split_words d "" line).
Qed.

(** X18. With a dictionary option made of white space only, the empty
    string included, [_cli_parse] prints nothing, whatever the other
    arguments are. *)
Theorem cli_blank_dictionary_prints_nothing (w a d : string)
  (p : option string) :
  Forall (λ c, isspace c = true) (chars d) →
  (_cli_parse {| argparse.word := w; argparse.available := a;
                 argparse.present := p; argparse.dictionary := Some d |}).1 = [].
Proof.
  intros Hd. unfold _cli_parse. simpl.
  fold (yielded (guess_generator w a
    match p with Some p0 => p0 | None => "" end
    (Some (member (dictionary_set d))))).
  rewrite yielded_dictionary_set. unfold str_split.
  rewrite split_words_blank by done.
  induction (yielded _) as [|x l IH]; [done|].
  rewrite filter_cons, decide_False; [done|]. apply not_elem_of_nil.
Qed.

Lemma cli_blank_dictionary_prints_nothing_witness :
  (_cli_parse {| argparse.word := "s????"; argparse.available := "eort";
                 argparse.present := None; argparse.dictionary := Some " " |}).1 = [].
Proof.
  apply (cli_blank_dictionary_prints_nothing "s????" "eort" " " None).
  vm_compute. repeat constructor.
Defined.

(** X19. With a dictionary option made of words separated by single
    spaces, each word non-empty and without white space, [_cli_parse] prints
    exactly the guesses that it prints without dictionary and that are among
    these words. *)
Theorem cli_spaced_dictionary (w a : string) (p : option string)
  (words : list string) :
  Forall (λ w, w ≠ "" ∧ Forall (λ c, isspace c = false) (chars w)) words →
  (_cli_parse {| argparse.word := w; argparse.available := a;
                 argparse.present := p;
                 argparse.dictionary := Some (spaced words) |}).1 =
    filter (λ g, g ∈ words)
      (_cli_parse {| argparse.word := w; argparse.available := a;
                     argparse.present := p; argparse.dictionary := None |}).1.
Proof.
  intros Hwords. unfold _cli_parse. simpl.
  fold (yielded (guess_generator w a
    match p with Some p0 => p0 | None => "" end
    (Some (member (dictionary_set (spaced words)))))).
  fold (yielded (guess_generator w a
    match p with Some p0 => p0 | None => "" end None)).
  by rewrite yielded_dictionary_set, str_split_spaced.
Qed.

Lemma cli_spaced_dictionary_witness :
  (_cli_parse {| argparse.word := "cr???"; argparse.available := "aenty";
                 argparse.present := None;
                 argparse.dictionary := Some "crane crate crony" |}).1 =
    filter (λ g, g ∈ ["crane"; "crate"; "crony"])
      (_cli_parse {| argparse.word := "cr???"; argparse.available := "aenty";
                     argparse.present := None;
                     argparse.dictionary := None |}).1.
Proof.
  apply (cli_spaced_dictionary "cr???" "aenty" None ["crane"; "crate"; "crony"]).
  repeat constructor; try done; vm_compute; reflexivity.
Defined.

Example cli_prints_dictionary_guesses :
  _cli_parse {| argparse.word := "cr???"; argparse.available := "aenty";
                argparse.present := None;
                argparse.dictionary := Some " crony  crate crane " |} =
    (["crane"; "crate"], Finished).
Proof. by vm_compute. Qed.

Example str_split_words :
  str_split "  two words " = ["two"; "words"] ∧ str_split "" = [] ∧
  str_split (String "009"%char "a" +:+ String "010"%char "b") = ["a"; "b"].
Proof. by vm_compute. Qed.

Lemma permutations_upto_first {A} (l : list A) :
  ∃ rest, itertools.permutations_upto (length l) l = l :: rest.
Proof.
  induction l as [|x l [rest IH]]; simpl; [by exists []|].
  rewrite IH. simpl. eauto.
Qed.

(** X20. [_permgen(p)] starts with [p] itself; so when there are as many
    present letters as unknown positions, none of them a question mark, the
    first request to the generator without dictionary yields the pattern
    filled from left to right with the present letters in the order
    given. *)
Theorem first_guess_in_given_order (pattern available present : string) :
  (∃ rest, _permgen present = present :: rest) ∧
  (unknowns pattern = String.length present → qmark ∉ chars present →
   (next (guess_generator pattern available present None)).1 =
     Yield (fill pattern (chars present))).
Proof.
  assert (∃ rest, _permgen present = present :: rest) as [rest Hrest].
  { unfold _permgen, itertools.permutations.
    destruct (permutations_upto_first (chars present)) as [rest ->].
    exists (map join rest). simpl. by rewrite join_chars. }
  split; [by exists rest|]. intros Hu Hq.
  unfold guess_generator, next. rewrite build_perms_selected.
  rewrite (proj2 (Nat.eqb_eq _ _) Hu), Hrest. simpl.
  rewrite decide_False by apply not_elem_of_empty. simpl.
  by rewrite substitute_letters.
Qed.

Lemma first_guess_in_given_order_witness :
  (next (guess_generator "?a?" "xyz" "cb" None)).1 = Yield "cab".
Proof.
  refine (proj2 (first_guess_in_given_order "?a?" "xyz" "cb") _ _).
  - reflexivity.
  - apply (bool_decide_unpack _). by vm_compute.
Defined.
